(** * Pixel-encryptor: a shallow embedding of [encryption_tool.py]

    The tool obscures an image in one of two keyed, reversible ways:
    [mode_swap] permutes the pixels with a shuffle seeded from the
    passphrase, and [mode_xor] combines the raw channel bytes with a
    keystream obtained by iterating SHA-256 on the passphrase.

    Conventions of the embedding:
    - a Python [int] is a [Z]; list positions and lengths are [nat];
    - a byte is a [Z] in the range [0, 256); [bytes] and [bytearray]
      values are [list Z];
    - a Python [str] is the [string] that holds its UTF-8 encoding, so
      [key.encode('utf-8')] reads the bytes of the string; a [str] with a
      lone surrogate has no encoding ([encode] raises [UnicodeEncodeError]
      on it) and is not a key of this development: every statement about
      a key is about a key that can be encoded;
    - a call that may raise returns in the [res] monad, whose [Raise]
      carries the Python exception; [OutOfFuel] marks a loop model that
      ran out of fuel and is shown never to occur;
    - [hashlib.sha256] is the function of FIPS 180-4, written out below;
    - [random.Random] is an interface: a generator state, the seeding
      constructor and [_randbelow], with the contract that
      [_randbelow(n)] lies in [0, n). *)

From Stdlib Require Import ZArith Lia.
From stdpp Require Import base tactics option list strings.

Local Open Scope Z_scope.

(** ** Results of calls that may raise *)

Inductive exn : Type :=
| IndexError
| ValueError
| TypeError.

Inductive res (A : Type) : Type :=
| Ok (a : A)
| Raise (e : exn)
| OutOfFuel.

Arguments Ok {A} a.
Arguments Raise {A} e.
Arguments OutOfFuel {A}.

#[global] Instance res_ret : MRet res := fun A a => Ok a.
#[global] Instance res_bind : MBind res := fun A B k m =>
  match m with
  | Ok a => k a
  | Raise e => Raise e
  | OutOfFuel => OutOfFuel
  end.

#[global] Instance res_fmap : FMap res := fun A B f m =>
  match m with
  | Ok a => Ok (f a)
  | Raise e => Raise e
  | OutOfFuel => OutOfFuel
  end.

(** [l[i]] for a position [i] known to be non-negative. *)
Definition getitem {A : Type} (l : list A) (i : nat) : res A :=
  match l !! i with
  | Some a => Ok a
  | None => Raise IndexError
  end.

(** [l[i] = v] for a position [i] known to be non-negative. *)
Definition setitem {A : Type} (l : list A) (i : nat) (v : A) : res (list A) :=
  if decide (i < length l)%nat then Ok (<[i := v]> l) else Raise IndexError.

(** [l[:stop]], with Python's reading of a negative [stop]. *)
Definition slice_to {A : Type} (l : list A) (stop : Z) : list A :=
  if stop <? 0 then take (Z.to_nat (Z.of_nat (length l) + stop)) l
  else take (Z.to_nat stop) l.

(** ** SHA-256 (FIPS 180-4), the function behind [hashlib.sha256] *)

Module SHA256.

Definition wrap32 (x : Z) : Z := x mod 2 ^ 32.
Definition add32 (x y : Z) : Z := wrap32 (x + y).
Definition ROTR (n x : Z) : Z :=
  Z.lor (Z.shiftr x n) (wrap32 (Z.shiftl x (32 - n))).
Definition SHR (n x : Z) : Z := Z.shiftr x n.
Definition not32 (x : Z) : Z := Z.lxor x 0xffffffff.

Definition Ch (x y z : Z) : Z := Z.lxor (Z.land x y) (Z.land (not32 x) z).
Definition Maj (x y z : Z) : Z :=
  Z.lxor (Z.lxor (Z.land x y) (Z.land x z)) (Z.land y z).
Definition Sigma0 (x : Z) : Z := Z.lxor (Z.lxor (ROTR 2 x) (ROTR 13 x)) (ROTR 22 x).
Definition Sigma1 (x : Z) : Z := Z.lxor (Z.lxor (ROTR 6 x) (ROTR 11 x)) (ROTR 25 x).
Definition sigma0 (x : Z) : Z := Z.lxor (Z.lxor (ROTR 7 x) (ROTR 18 x)) (SHR 3 x).
Definition sigma1 (x : Z) : Z := Z.lxor (Z.lxor (ROTR 17 x) (ROTR 19 x)) (SHR 10 x).

(** The first 64 primes, by trial division. *)
Definition is_prime (n : Z) : bool :=
  forallb (fun d => negb (n mod d =? 0)) (seqZ 2 (n - 2)).

Definition primes : list Z := filter (fun n => is_prime n = true) (seqZ 2 310).

(** The integer part of the cube root of a number below 2^108, one bit at
    a time from the top. *)
Definition cube_root (n : Z) : Z :=
  fold_left (fun r b => let r' := r + 2 ^ b in if r' ^ 3 <=? n then r' else r)
            (reverse (seqZ 0 36)) 0.

(** Section 4.2.2: the first 32 bits of the fractional parts of the cube
    roots of the first 64 primes. *)
Definition K : list Z :=
  Eval vm_compute in (fun p => wrap32 (cube_root (p * 2 ^ 96))) <$> primes.

(** The eight 32-bit words of a hash value, also used for the working
    variables a..h of one compression. *)
Record words8 : Type := W8 { wa : Z; wb : Z; wc : Z; wd : Z;
                             we : Z; wf : Z; wg : Z; wh : Z }.

(** Section 5.3.3: the first 32 bits of the fractional parts of the square
    roots of the first 8 primes. *)
Definition root_word (p : Z) : Z := wrap32 (Z.sqrt (p * 2 ^ 64)).

Definition initial_hash : words8 :=
  Eval vm_compute in
    W8 (root_word 2) (root_word 3) (root_word 5) (root_word 7)
       (root_word 11) (root_word 13) (root_word 17) (root_word 19).

(** Big-endian bytes of a 32-bit and of a 64-bit quantity. *)
Definition be32_bytes (w : Z) : list Z :=
  [ Z.land (Z.shiftr w 24) 255; Z.land (Z.shiftr w 16) 255;
    Z.land (Z.shiftr w 8) 255; Z.land w 255 ].

Definition be64_bytes (w : Z) : list Z :=
  be32_bytes (Z.shiftr w 32) ++ be32_bytes w.

(** Section 5.1.1: a 1 bit, zero bits up to 56 modulo 64 bytes, then the
    bit length on 8 bytes. *)
Definition pad (msg : list Z) : list Z :=
  let len := Z.of_nat (length msg) in
  msg ++ [0x80] ++ replicate (Z.to_nat ((55 - len) mod 64)) 0
      ++ be64_bytes (8 * len).

(** The 32-bit big-endian words of a byte sequence. *)
Fixpoint be32_words (bs : list Z) : list Z :=
  match bs with
  | b0 :: b1 :: b2 :: b3 :: rest =>
      (b0 * 2 ^ 24 + b1 * 2 ^ 16 + b2 * 2 ^ 8 + b3) :: be32_words rest
  | _ => []
  end.

(** Section 6.2.2 step 1: the message schedule, extended word by word. *)
Fixpoint schedule (n : nat) (w : list Z) : list Z :=
  match n with
  | O => w
  | S n' =>
      let t := length w in
      let at_ (k : nat) := nth (t - k) w 0 in
      schedule n'
        (w ++ [add32 (add32 (sigma1 (at_ 2%nat)) (at_ 7%nat))
                     (add32 (sigma0 (at_ 15%nat)) (at_ 16%nat))])
  end.

(** Section 6.2.2 step 3: one round on the working variables. *)
Definition round (v : words8) (kw : Z * Z) : words8 :=
  let t1 := add32 (add32 (add32 (add32 (wh v) (Sigma1 (we v)))
                                (Ch (we v) (wf v) (wg v)))
                         (fst kw))
                  (snd kw) in
  let t2 := add32 (Sigma0 (wa v)) (Maj (wa v) (wb v) (wc v)) in
  W8 (add32 t1 t2) (wa v) (wb v) (wc v) (add32 (wd v) t1) (we v) (wf v) (wg v).

Definition compress (h : words8) (block : list Z) : words8 :=
  let w := schedule 48 (be32_words block) in
  let v := fold_left round (combine K w) h in
  W8 (add32 (wa h) (wa v)) (add32 (wb h) (wb v))
     (add32 (wc h) (wc v)) (add32 (wd h) (wd v))
     (add32 (we h) (we v)) (add32 (wf h) (wf v))
     (add32 (wg h) (wg v)) (add32 (wh h) (wh v)).

(** The padded message is consumed 64 bytes at a time. *)
Fixpoint blocks (n : nat) (h : words8) (bs : list Z) : words8 :=
  match n with
  | O => h
  | S n' => blocks n' (compress h (take 64 bs)) (drop 64 bs)
  end.

Definition digest_bytes (h : words8) : list Z :=
  be32_bytes (wa h) ++ be32_bytes (wb h) ++ be32_bytes (wc h)
    ++ be32_bytes (wd h) ++ be32_bytes (we h) ++ be32_bytes (wf h)
    ++ be32_bytes (wg h) ++ be32_bytes (wh h).

Definition sha256 (msg : list Z) : list Z :=
  let padded := pad msg in
  digest_bytes (blocks (length padded / 64) initial_hash padded).

End SHA256.

Import SHA256.

(** ** Key derivation *)

(** [key.encode('utf-8')]: the bytes of the string. *)
Definition encode_utf8 (key : string) : list Z :=
  (fun c => Z.of_nat (Ascii.nat_of_ascii c)) <$> String.list_ascii_of_string key.

(** [int.from_bytes(bs, 'big')]. *)
Definition int_from_bytes_big (bs : list Z) : Z :=
  fold_left (fun acc b => acc * 256 + b) bs 0.

Definition derive_seed_from_key (key : string) : Z :=
  let h := sha256 (encode_utf8 key) in
  int_from_bytes_big (take 8 h).

(** The [while] loop of [keystream_bytes]; [fuel] bounds the number of
    iterations still allowed. *)
Fixpoint keystream_loop (fuel : nat) (state out : list Z) (length : Z)
  : res (list Z) :=
  if Z.of_nat (List.length out) <? length then
    match fuel with
    | O => OutOfFuel
    | S fuel' =>
        let state' := sha256 state in
        keystream_loop fuel' state' (out ++ state') length
    end
  else Ok out.

Definition keystream_bytes (key : string) (length : Z) : res (list Z) :=
  let out := [] in
  let state := sha256 (encode_utf8 key) in
  out ← keystream_loop (Z.to_nat length) state out length;
  Ok (slice_to out length).

(** ** Loops and comprehensions over lists *)

(** [for i in idx: s = body(s, i)], stopping at the first exception. *)
Fixpoint for_each {St I : Type} (body : St -> I -> res St) (idx : list I)
    (s : St) : res St :=
  match idx with
  | [] => Ok s
  | i :: idx' => s' ← body s i; for_each body idx' s'
  end.

(** [[f(i) for i in idx]]. *)
Fixpoint comprehension {I B : Type} (f : I -> res B) (idx : list I)
  : res (list B) :=
  match idx with
  | [] => Ok []
  | i :: idx' => b ← f i; bs ← comprehension f idx'; Ok (b :: bs)
  end.

(** ** The pseudorandom generator: the interface of [random.Random] *)

Record Generator : Type := {
  rng : Type;
  (** [random.Random(seed)]: a fresh generator, a function of the seed only. *)
  Random : Z -> rng;
  (** [rnd._randbelow(n)]: the number drawn and the generator after it. *)
  randbelow : rng -> nat -> nat * rng
}.

(** The contract of [_randbelow]: for [n > 0] the result is in [0, n). *)
Definition randbelow_in_range (G : Generator) : Prop :=
  forall (g : rng G) (n : nat), (0 < n)%nat -> (fst (randbelow G g n) < n)%nat.

(** [x[i], x[j] = x[j], x[i]]: both reads, then the store at [i], then
    the store at [j]. *)
Definition exchange {A : Type} (x : list A) (i j : nat) : res (list A) :=
  xj ← getitem x j;
  xi ← getitem x i;
  x ← setitem x i xj;
  setitem x j xi.

Section Shuffle.

Context (G : Generator).

(** [Random.shuffle(x)] of the standard library:
    [for i in reversed(range(1, len(x))): j = randbelow(i + 1);
     x[i], x[j] = x[j], x[i]]. *)
Definition shuffle_step {A : Type} (s : rng G * list A) (i : nat)
  : res (rng G * list A) :=
  let '(j, g) := randbelow G (fst s) (i + 1) in
  x ← exchange (snd s) i j;
  Ok (g, x).

Definition shuffle {A : Type} (rnd : rng G) (x : list A)
  : res (rng G * list A) :=
  for_each shuffle_step (reverse (seq 1 (length x - 1))) (rnd, x).

(** Lines 40-42 and 53-55: a generator seeded afresh, the identity index
    list, and its shuffle. *)
Definition shuffled_indices (n : nat) (seed : Z) : res (list nat) :=
  let rnd := Random G seed in
  let indices := seq 0 n in
  s ← shuffle rnd indices;
  Ok (snd s).

Context {A : Type}.

(** Line 43: [permuted = [pixels[i] for i in indices]]. *)
Definition apply_permutation (pixels : list A) (indices : list nat)
  : res (list A) :=
  comprehension (getitem pixels) indices.

(** Lines 56-58: [orig = [None] * n] and
    [for i in range(n): orig[indices[i]] = pixels[i]], with
    [n = len(pixels)]. *)
Definition invert_permutation (pixels : list A) (indices : list nat)
  : res (list (option A)) :=
  let n := length pixels in
  let orig := replicate n None in
  for_each (fun orig i =>
              j ← getitem indices i;
              p ← getitem pixels i;
              setitem orig j (Some p))
           (seq 0 n) orig.

(** Lines 37-43 of [mode_swap], on the pixel list. *)
Definition swap_pixels (pixels : list A) (key : string) : res (list A) :=
  let n := length pixels in
  let seed := derive_seed_from_key key in
  indices ← shuffled_indices n seed;
  apply_permutation pixels indices.

(** Lines 50-58 of [invert_swap], on the pixel list. *)
Definition unswap_pixels (pixels : list A) (key : string)
  : res (list (option A)) :=
  let n := length pixels in
  let seed := derive_seed_from_key key in
  indices ← shuffled_indices n seed;
  invert_permutation pixels indices.

End Shuffle.

(** ** The xor transform on the raw bytes *)

(** Lines 31-32: [for i in range(len(data)): data[i] ^= ks[i]]. *)
Definition xor_loop (data ks : list Z) : res (list Z) :=
  for_each (fun data i =>
              d ← getitem data i;
              k ← getitem ks i;
              setitem data i (Z.lxor d k))
           (seq 0 (length data)) data.

(** Lines 29-32 of [mode_xor], on the byte buffer. *)
Definition xor_bytes (data : list Z) (key : string) : res (list Z) :=
  ks ← keystream_bytes key (Z.of_nat (length data));
  xor_loop data ks.

(** ** Images *)

(** [load_image] converts every input to RGBA: a pixel is four channel
    bytes. *)
Definition pixel : Type := Z * Z * Z * Z.

Record Image : Type := {
  im_mode : string;
  im_size : nat * nat;
  im_data : list pixel
}.

(** An image holds width times height pixels. *)
Definition well_formed (img : Image) : Prop :=
  length (im_data img) = (fst (im_size img) * snd (im_size img))%nat.

Definition getdata (img : Image) : list pixel := im_data img.

Definition pixel_bytes (p : pixel) : list Z :=
  let '(r, g, b, a) := p in [r; g; b; a].

Definition tobytes (img : Image) : list Z := im_data img ≫= pixel_bytes.

Fixpoint pixels_of_bytes (bs : list Z) : list pixel :=
  match bs with
  | r :: g :: b :: a :: rest => (r, g, b, a) :: pixels_of_bytes rest
  | _ => []
  end.

(** [Image.frombytes(mode, size, data)]: [data] must hold exactly the
    bytes of width times height pixels. *)
Definition frombytes (mode : string) (size : nat * nat) (data : list Z)
  : res Image :=
  if decide (length data = 4 * (fst size * snd size))%nat
  then Ok {| im_mode := mode; im_size := size; im_data := pixels_of_bytes data |}
  else Raise ValueError.

(** [Image.new(mode, size)]: every pixel zero. *)
Definition Image_new (mode : string) (size : nat * nat) : Image :=
  {| im_mode := mode; im_size := size;
     im_data := replicate (fst size * snd size) (0, 0, 0, 0) |}.

(** [out.putdata(seq)] with one item per pixel of [out]; an item that is
    [None] is no pixel. *)
Definition putdata (out : Image) (items : list (option pixel)) : res Image :=
  if decide (length items = length (im_data out)) then
    data ← comprehension (fun o => match o with
                                  | Some p => Ok p
                                  | None => Raise TypeError
                                  end) items;
    Ok {| im_mode := im_mode out; im_size := im_size out; im_data := data |}
  else Raise ValueError.

Section Modes.

Context (G : Generator).

Definition mode_xor (img : Image) (key : string) : res Image :=
  let mode := im_mode img in
  let data := tobytes img in
  data ← xor_bytes data key;
  frombytes mode (im_size img) data.

Definition mode_swap (img : Image) (key : string) : res Image :=
  let pixels := getdata img in
  permuted ← swap_pixels G pixels key;
  let out := Image_new (im_mode img) (im_size img) in
  putdata out (Some <$> permuted).

Definition invert_swap (img : Image) (key : string) : res Image :=
  let pixels := getdata img in
  orig ← unswap_pixels G pixels key;
  let out := Image_new (im_mode img) (im_size img) in
  putdata out orig.

(** The choices of the command line. *)
Inductive operation : Type := encrypt | decrypt.
Inductive mode : Type := swap | xor.

(** Lines 82-85 of [main]: the transform selected by the arguments. *)
Definition main_transform (op : operation) (m : mode) (img : Image)
    (key : string) : res Image :=
  match m with
  | xor => mode_xor img key
  | swap =>
      match op with
      | encrypt => mode_swap img key
      | decrypt => invert_swap img key
      end
  end.

End Modes.

(** ** A concrete generator, for running the model *)

Module LCG.

(** A 64-bit linear congruential generator; [_randbelow] reduces the
    state modulo [n]. *)
Definition next (g : Z) : Z :=
  (g * 6364136223846793005 + 1442695040888963407) mod 2 ^ 64.

Definition gen : Generator := {|
  rng := Z;
  Random := fun seed => seed mod 2 ^ 64;
  randbelow := fun g n =>
    let g' := next g in (Z.to_nat (g' mod Z.of_nat n), g')
|}.

End LCG.

(** ** Sample inputs *)

Module Sample.

(** A 2 x 2 RGBA image. *)
Definition img : Image := {|
  im_mode := "RGBA";
  im_size := (2%nat, 2%nat);
  im_data := [ (255, 0, 0, 255); (0, 255, 0, 255);
               (0, 0, 255, 255); (16, 32, 48, 64) ]
|}.

End Sample.

(** ** The statements of the specification, in its own words *)

Definition byte_at (digest : list Z) (i : nat) : Z := default 0 (digest !! i).

(** The first 8 bytes of a digest as a big-endian unsigned integer. *)
Definition first8_big_endian (digest : list Z) : Z :=
  byte_at digest 0 * 2 ^ 56 + byte_at digest 1 * 2 ^ 48
  + byte_at digest 2 * 2 ^ 40 + byte_at digest 3 * 2 ^ 32
  + byte_at digest 4 * 2 ^ 24 + byte_at digest 5 * 2 ^ 16
  + byte_at digest 6 * 2 ^ 8 + byte_at digest 7.

(** [H0] is the hash of the passphrase bytes, [H(i+1)] the hash of [Hi]. *)
Definition chain_digest (p : string) (i : nat) : list Z :=
  Nat.iter i sha256 (sha256 (encode_utf8 p)).

(** [H1 ++ H2 ++ ... ++ Hk]. *)
Definition chain_stream (p : string) (k : nat) : list Z :=
  seq 1 k ≫= chain_digest p.

(** The next [j] digests of the chain that has reached [state]. *)
Fixpoint blocks_from (state : list Z) (j : nat) : list Z :=
  match j with
  | O => []
  | S j' => sha256 state ++ blocks_from (sha256 state) j'
  end.

(** Byte [i] of the keystream, from the passphrase and [i] alone. *)
Definition keystream_byte (p : string) (i : nat) : Z :=
  byte_at (chain_digest p (S (i / 32))) (i mod 32).

(** A pixel whose four channels are combined with the four mask bytes of
    its position. *)
Definition xor_pixel (mask : nat -> Z) (i : nat) (p : pixel) : pixel :=
  let '(r, g, b, a) := p in
  (Z.lxor r (mask (4 * i)%nat), Z.lxor g (mask (4 * i + 1)%nat),
   Z.lxor b (mask (4 * i + 2)%nat), Z.lxor a (mask (4 * i + 3)%nat)).

(** ** Test vectors *)

Example K_ends :
  length K = 64%nat /\ K !! 0%nat = Some 0x428a2f98 /\ K !! 63%nat = Some 0xc67178f2.
Proof. vm_compute. auto. Qed.

Example initial_hash_ends :
  wa initial_hash = 0x6a09e667 /\ wh initial_hash = 0x5be0cd19.
Proof. vm_compute. auto. Qed.

Example sha256_empty :
  sha256 [] =
  [ 0xe3; 0xb0; 0xc4; 0x42; 0x98; 0xfc; 0x1c; 0x14; 0x9a; 0xfb; 0xf4; 0xc8;
    0x99; 0x6f; 0xb9; 0x24; 0x27; 0xae; 0x41; 0xe4; 0x64; 0x9b; 0x93; 0x4c;
    0xa4; 0x95; 0x99; 0x1b; 0x78; 0x52; 0xb8; 0x55 ].
Proof. vm_compute. reflexivity. Qed.

Example sha256_abc :
  sha256 (encode_utf8 "abc") =
  [ 0xba; 0x78; 0x16; 0xbf; 0x8f; 0x01; 0xcf; 0xea; 0x41; 0x41; 0x40; 0xde;
    0x5d; 0xae; 0x22; 0x23; 0xb0; 0x03; 0x61; 0xa3; 0x96; 0x17; 0x7a; 0x9c;
    0xb4; 0x10; 0xff; 0x61; 0xf2; 0x00; 0x15; 0xad ].
Proof. vm_compute. reflexivity. Qed.

Example sha256_two_blocks :
  take 8 (sha256 (replicate 64 97)) = [255; 224; 84; 254; 122; 224; 203; 109].
Proof. vm_compute. reflexivity. Qed.

Example derive_seed_secret : derive_seed_from_key "secret" = 3150282591544648675.
Proof. vm_compute. reflexivity. Qed.

Example keystream_k_3 : keystream_bytes "k" 3 = Ok [55; 119; 88].
Proof. vm_compute. reflexivity. Qed.

Example xor_k : xor_bytes [0x10; 0x20; 0x30] "k" = Ok [39; 87; 104].
Proof. vm_compute. reflexivity. Qed.

Example shuffled_indices_lcg :
  shuffled_indices LCG.gen 6 5 = Ok [3; 5; 1; 2; 4; 0]%nat.
Proof. vm_compute. reflexivity. Qed.

Example swap_pixels_lcg :
  swap_pixels LCG.gen [10; 20; 30; 40] "secret" = Ok [40; 10; 20; 30].
Proof. vm_compute. reflexivity. Qed.

(** ** Facts about SHA-256 *)

Lemma land_255_range (x : Z) : 0 <= Z.land x 255 < 256.
Proof.
  change 255 with (Z.ones 8). rewrite Z.land_ones by lia.
  apply Z.mod_pos_bound. lia.
Qed.

Lemma be32_bytes_range (w : Z) : Forall (fun b => 0 <= b < 256) (be32_bytes w).
Proof. unfold be32_bytes. repeat constructor; apply land_255_range. Qed.

Lemma sha256_length (msg : list Z) : length (sha256 msg) = 32%nat.
Proof. unfold sha256, digest_bytes. rewrite !length_app. reflexivity. Qed.

Lemma sha256_range (msg : list Z) : Forall (fun b => 0 <= b < 256) (sha256 msg).
Proof.
  unfold sha256, digest_bytes.
  repeat (apply Forall_app; split); apply be32_bytes_range.
Qed.

Arguments sha256 : simpl never.

(** ** The seed *)

Lemma int_from_bytes_big_8 (b0 b1 b2 b3 b4 b5 b6 b7 : Z) :
  int_from_bytes_big [b0; b1; b2; b3; b4; b5; b6; b7] =
  b0 * 2 ^ 56 + b1 * 2 ^ 48 + b2 * 2 ^ 40 + b3 * 2 ^ 32
  + b4 * 2 ^ 24 + b5 * 2 ^ 16 + b6 * 2 ^ 8 + b7.
Proof. unfold int_from_bytes_big. simpl. ring. Qed.

Lemma first8_of_digest (d : list Z) :
  length d = 32%nat ->
  Forall (fun b => 0 <= b < 256) d ->
  int_from_bytes_big (take 8 d) = first8_big_endian d
  /\ 0 <= int_from_bytes_big (take 8 d) < 2 ^ 64.
Proof.
  intros Hlen Hd.
  do 8 (destruct d as [|? d]; [discriminate Hlen|]).
  repeat match goal with
         | H : Forall _ (_ :: _) |- _ => apply Forall_cons in H as [? H]
         end.
  cbn [take]. rewrite int_from_bytes_big_8.
  unfold first8_big_endian, byte_at. cbn [lookup list_lookup default].
  split; [reflexivity | lia].
Qed.

(** C4. The seed is the big-endian reading, as an unsigned 64-bit integer,
    of the first 8 bytes of the SHA-256 digest of the UTF-8 bytes of the
    passphrase; it is below 2^64 and depends on the passphrase alone. *)
Theorem derive_seed_from_key_spec (p : string) :
  derive_seed_from_key p = first8_big_endian (sha256 (encode_utf8 p))
  /\ 0 <= derive_seed_from_key p < 2 ^ 64
  /\ (forall p' : string, p' = p ->
        derive_seed_from_key p' = derive_seed_from_key p).
Proof.
  unfold derive_seed_from_key.
  destruct (first8_of_digest (sha256 (encode_utf8 p))) as [Heq Hrange].
  - apply sha256_length.
  - apply sha256_range.
  - split; [exact Heq|]. split; [exact Hrange|]. intros p' ->. reflexivity.
Qed.

Lemma derive_seed_from_key_spec_witness :
  derive_seed_from_key "secret"
  = first8_big_endian (sha256 (encode_utf8 "secret"))
  /\ (0 <= derive_seed_from_key "secret" < 2 ^ 64)%Z
  /\ (forall p' : string, p' = "secret" ->
        derive_seed_from_key p' = derive_seed_from_key "secret").
Proof. apply (derive_seed_from_key_spec "secret"). Defined.

(** ** The keystream *)

Lemma blocks_from_length (j : nat) (state : list Z) :
  length (blocks_from state j) = (32 * j)%nat.
Proof.
  revert state. induction j as [|j IH]; intros state; [reflexivity|].
  cbn [blocks_from]. rewrite length_app, sha256_length, IH. lia.
Qed.

Lemma blocks_from_add (j d : nat) (state : list Z) :
  blocks_from state (j + d) =
  blocks_from state j ++ blocks_from (Nat.iter j sha256 state) d.
Proof.
  revert state. induction j as [|j IH]; intros state; [reflexivity|].
  cbn [blocks_from Nat.add]. rewrite IH, <- app_assoc.
  rewrite <- Nat.iter_succ_r. reflexivity.
Qed.

Lemma chain_stream_from (p : string) (m k : nat) :
  seq (S m) k ≫= chain_digest p = blocks_from (chain_digest p m) k.
Proof.
  revert m. induction k as [|k IH]; intros m; [reflexivity|].
  cbn [seq blocks_from]. rewrite bind_cons, IH. reflexivity.
Qed.

Lemma chain_stream_blocks (p : string) (k : nat) :
  chain_stream p k = blocks_from (sha256 (encode_utf8 p)) k.
Proof. unfold chain_stream. rewrite chain_stream_from. reflexivity. Qed.

Lemma chain_stream_length (p : string) (k : nat) :
  length (chain_stream p k) = (32 * k)%nat.
Proof. rewrite chain_stream_blocks. apply blocks_from_length. Qed.

(** The loop stops after exactly [j] more digests, where [j] is the least
    number that brings [out] to [L] bytes, if it has fuel for them. *)
Lemma keystream_loop_spec (j : nat) :
  forall (fuel : nat) (state out : list Z) (L : Z),
    (j <= fuel)%nat ->
    L <= Z.of_nat (length out) + 32 * Z.of_nat j ->
    ((0 < j)%nat -> Z.of_nat (length out) + 32 * (Z.of_nat j - 1) < L) ->
    keystream_loop fuel state out L = Ok (out ++ blocks_from state j).
Proof.
  induction j as [|j IH]; intros fuel state out L Hfuel Hup Hlow.
  - cbn [blocks_from]. rewrite app_nil_r.
    destruct fuel; cbn [keystream_loop];
      (destruct (Z.ltb_spec (Z.of_nat (length out)) L); [lia | reflexivity]).
  - destruct fuel as [|fuel]; [lia|]. cbn [keystream_loop blocks_from].
    destruct (Z.ltb_spec (Z.of_nat (length out)) L) as [_|Hge]; [|lia].
    rewrite (IH fuel (sha256 state) (out ++ sha256 state) L).
    + rewrite <- app_assoc. reflexivity.
    + lia.
    + rewrite length_app, sha256_length. lia.
    + rewrite length_app, sha256_length. lia.
Qed.

(** For a length that is not negative, the keystream is the first
    [L] bytes of any long enough prefix of the chain. *)
Lemma keystream_bytes_chain (p : string) (L : Z) (k : nat) :
  0 <= L -> L <= 32 * Z.of_nat k ->
  keystream_bytes p L = Ok (take (Z.to_nat L) (chain_stream p k)).
Proof.
  intros HL Hk. unfold keystream_bytes.
  set (j := Z.to_nat ((L + 31) / 32)).
  assert (Hj : 32 * Z.of_nat j - 32 < L <= 32 * Z.of_nat j).
  { unfold j. rewrite Z2Nat.id by (apply Z.div_pos; lia).
    pose proof (Z.div_mod (L + 31) 32 ltac:(lia)).
    pose proof (Z.mod_pos_bound (L + 31) 32 ltac:(lia)). lia. }
  rewrite (keystream_loop_spec j); cbn [length]; [|lia..].
  cbn [mbind res_bind app]. f_equal. unfold slice_to.
  destruct (Z.ltb_spec L 0) as [?|_]; [lia|].
  rewrite chain_stream_blocks.
  replace k with (j + (k - j))%nat by lia.
  rewrite blocks_from_add, take_app_le; [reflexivity|].
  rewrite blocks_from_length. lia.
Qed.

Lemma keystream_bytes_negative (p : string) (L : Z) :
  L < 0 -> keystream_bytes p L = Ok [].
Proof.
  intros HL. unfold keystream_bytes.
  rewrite (keystream_loop_spec 0); cbn [length]; [|lia..].
  cbn [mbind res_bind app blocks_from]. unfold slice_to.
  destruct (Z.ltb_spec L 0) as [_|?]; [|lia]. rewrite take_nil. reflexivity.
Qed.

Lemma chain_stream_lookup (p : string) (k i : nat) :
  (i < 32 * k)%nat -> chain_stream p k !! i = Some (keystream_byte p i).
Proof.
  intros Hi. unfold chain_stream, keystream_byte, byte_at.
  replace k with (i / 32 + S (k - S (i / 32)))%nat.
  2:{ pose proof (Nat.div_mod_eq i 32).
      pose proof (Nat.mod_upper_bound i 32 ltac:(lia)). lia. }
  rewrite seq_app, bind_app. cbn [seq]. rewrite bind_cons.
  pose proof (Nat.div_mod_eq i 32) as Hdm.
  pose proof (Nat.mod_upper_bound i 32 ltac:(lia)) as Hmod.
  assert (Hlen : length (seq 1 (i / 32) ≫= chain_digest p) = (32 * (i / 32))%nat)
    by apply chain_stream_length.
  rewrite lookup_app_r by lia. rewrite Hlen.
  replace (i - 32 * (i / 32))%nat with (i mod 32)%nat by lia.
  assert (Hd : length (chain_digest p (1 + i / 32)) = 32%nat).
  { cbn [Nat.add chain_digest]. unfold chain_digest. cbn [Nat.iter].
    apply sha256_length. }
  rewrite lookup_app_l by lia.
  destruct (lookup_lt_is_Some_2 (chain_digest p (1 + i / 32)) (i mod 32)
              ltac:(lia)) as [b Hb].
  cbn [Nat.add] in *. rewrite Hb. reflexivity.
Qed.

(** C5. For a length [L >= 0] the keystream has exactly [L] bytes and is
    the first [L] bytes of [H1 ++ H2 ++ ...], where [H0] is the hash of the
    passphrase bytes and each next digest is the hash of the one before;
    length 0 gives the empty sequence. *)
Theorem keystream_bytes_spec (p : string) (L : Z) :
  0 <= L ->
  (exists ks : list Z,
      keystream_bytes p L = Ok ks
      /\ Z.of_nat (length ks) = L
      /\ forall k : nat, L <= 32 * Z.of_nat k ->
                        ks = take (Z.to_nat L) (chain_stream p k))
  /\ keystream_bytes p 0 = Ok [].
Proof.
  intros HL. split.
  - exists (take (Z.to_nat L) (chain_stream p (Z.to_nat L))).
    split; [apply keystream_bytes_chain; lia|]. split.
    + rewrite length_take, chain_stream_length. lia.
    + intros k Hk.
      pose proof (keystream_bytes_chain p L k HL Hk) as H1.
      pose proof (keystream_bytes_chain p L (Z.to_nat L) HL ltac:(lia)) as H2.
      congruence.
  - rewrite (keystream_bytes_chain p 0 0) by lia. reflexivity.
Qed.

Lemma keystream_bytes_spec_witness :
  0 <= 40
  /\ (exists ks : list Z,
        keystream_bytes "k" 40 = Ok ks
        /\ Z.of_nat (length ks) = 40
        /\ forall k : nat, 40 <= 32 * Z.of_nat k ->
                          ks = take (Z.to_nat 40) (chain_stream "k" k))
  /\ keystream_bytes "k" 0 = Ok [].
Proof. split; [lia | apply (keystream_bytes_spec "k" 40); lia]. Defined.

(** C6. The keystream of length [L] is the first [L] bytes of the keystream
    of any greater length [L + k], and byte [i] of a keystream is
    [keystream_byte p i], whatever length was asked for. *)
Theorem keystream_bytes_prefix (p : string) (L k : Z) :
  0 <= L -> 0 <= k ->
  (exists short long : list Z,
      keystream_bytes p L = Ok short
      /\ keystream_bytes p (L + k) = Ok long
      /\ short = take (Z.to_nat L) long)
  /\ (forall i : nat, Z.of_nat i < L ->
        exists ks : list Z,
          keystream_bytes p L = Ok ks /\ ks !! i = Some (keystream_byte p i)).
Proof.
  intros HL Hk. set (n := Z.to_nat (L + k)). split.
  - exists (take (Z.to_nat L) (chain_stream p n)),
           (take (Z.to_nat (L + k)) (chain_stream p n)).
    split; [apply keystream_bytes_chain; lia|].
    split; [apply keystream_bytes_chain; lia|].
    rewrite take_take. f_equal. lia.
  - intros i Hi. exists (take (Z.to_nat L) (chain_stream p n)).
    split; [apply keystream_bytes_chain; lia|].
    rewrite lookup_take_lt by lia. apply chain_stream_lookup. lia.
Qed.

Lemma keystream_bytes_prefix_witness :
  0 <= 3 /\ 0 <= 37
  /\ (exists short long : list Z,
        keystream_bytes "k" 3 = Ok short
        /\ keystream_bytes "k" (3 + 37) = Ok long
        /\ short = take (Z.to_nat 3) long)
  /\ (forall i : nat, Z.of_nat i < 3 ->
        exists ks : list Z,
          keystream_bytes "k" 3 = Ok ks
          /\ ks !! i = Some (keystream_byte "k" i)).
Proof.
  split; [lia|]. split; [lia|]. apply (keystream_bytes_prefix "k" 3 37); lia.
Defined.

(** C7 as the code has it: a negative length raises nothing; the loop body
    never runs and the slice of the empty buffer is empty. *)
Theorem keystream_bytes_negative_length (p : string) (L : Z) :
  L < 0 -> keystream_bytes p L = Ok [].
Proof. apply keystream_bytes_negative. Qed.

Lemma keystream_bytes_negative_length_witness :
  -1 < 0 /\ keystream_bytes "k" (-1) = Ok [].
Proof. split; [lia | apply (keystream_bytes_negative_length "k" (-1)); lia]. Defined.

(** C7 as stated fails: with length -5 the call returns the empty
    byte sequence and raises no exception. *)
Lemma keystream_bytes_negative_no_error :
  ~ (exists e : exn, keystream_bytes "passphrase" (-5) = Raise e).
Proof. intros [e He]. vm_compute in He. discriminate He. Qed.

(** ** Loops *)

Lemma for_each_app {St I : Type} (body : St -> I -> res St) (l1 l2 : list I)
    (s : St) :
  for_each body (l1 ++ l2) s = s' ← for_each body l1 s; for_each body l2 s'.
Proof.
  revert s. induction l1 as [|i l1 IH]; intros s; [reflexivity|].
  cbn [app for_each]. destruct (body s i); cbn [mbind res_bind]; auto.
Qed.

Lemma getitem_Some {A : Type} (l : list A) (i : nat) (a : A) :
  l !! i = Some a -> getitem l i = Ok a.
Proof. intros H. unfold getitem. rewrite H. reflexivity. Qed.

Lemma setitem_lt {A : Type} (l : list A) (i : nat) (v : A) :
  (i < length l)%nat -> setitem l i v = Ok (<[i := v]> l).
Proof. intros H. unfold setitem. destruct (decide (i < length l)%nat); [reflexivity | lia]. Qed.

(** ** The xor transform *)

Lemma xor_loop_from (ks : list Z) (m : nat) :
  forall (i : nat) (data : list Z),
    (i + m = length data)%nat ->
    (length data <= length ks)%nat ->
    for_each (fun data i =>
                d ← getitem data i;
                k ← getitem ks i;
                setitem data i (Z.lxor d k))
             (seq i m) data
    = Ok (take i data ++ zip_with Z.lxor (drop i data) (drop i ks)).
Proof.
  induction m as [|m IH]; intros i data Hi Hks.
  - cbn [seq for_each]. rewrite take_ge, (drop_ge data) by lia.
    cbn [zip_with]. rewrite app_nil_r. reflexivity.
  - cbn [seq for_each].
    destruct (lookup_lt_is_Some_2 data i ltac:(lia)) as [d Hd].
    destruct (lookup_lt_is_Some_2 ks i ltac:(lia)) as [k Hk].
    rewrite (getitem_Some _ _ _ Hd). cbn [mbind res_bind].
    rewrite (getitem_Some _ _ _ Hk). cbn [mbind res_bind].
    rewrite setitem_lt by lia. cbn [mbind res_bind].
    rewrite IH by (rewrite length_insert; lia).
    f_equal.
    rewrite (take_S_r _ _ (Z.lxor d k))
      by (apply list_lookup_insert_eq; lia).
    rewrite take_insert_ge by lia.
    rewrite drop_insert_lt by lia.
    rewrite (drop_S data d i Hd), (drop_S ks k i Hk).
    cbn [zip_with]. rewrite <- app_assoc. reflexivity.
Qed.

Lemma xor_loop_zip (data ks : list Z) :
  (length data <= length ks)%nat ->
  xor_loop data ks = Ok (zip_with Z.lxor data ks).
Proof.
  intros Hks. unfold xor_loop.
  rewrite (xor_loop_from ks (length data) 0 data) by lia.
  reflexivity.
Qed.

Lemma zip_lxor_involutive (data : list Z) :
  forall ks : list Z,
    (length data <= length ks)%nat ->
    zip_with Z.lxor (zip_with Z.lxor data ks) ks = data.
Proof.
  induction data as [|d data IH]; intros [|k ks] Hks;
    cbn [zip_with length] in *; try reflexivity; try lia.
  rewrite IH by lia.
  rewrite Z.lxor_assoc, Z.lxor_nilpotent, Z.lxor_0_r. reflexivity.
Qed.

Lemma xor_bytes_zip (data : list Z) (key : string) :
  exists ks : list Z,
    keystream_bytes key (Z.of_nat (length data)) = Ok ks
    /\ length ks = length data
    /\ xor_bytes data key = Ok (zip_with Z.lxor data ks).
Proof.
  pose proof (keystream_bytes_chain key (Z.of_nat (length data)) (length data)
                ltac:(lia) ltac:(lia)) as Hks.
  rewrite Nat2Z.id in Hks.
  assert (Hlen : length (take (length data) (chain_stream key (length data)))
                 = length data)
    by (rewrite length_take, chain_stream_length; lia).
  eexists. split; [exact Hks|]. split; [exact Hlen|].
  unfold xor_bytes. rewrite Hks. cbn [mbind res_bind].
  apply xor_loop_zip. lia.
Qed.

Lemma xor_bytes_twice (data : list Z) (key : string) :
  exists data' : list Z,
    xor_bytes data key = Ok data'
    /\ length data' = length data
    /\ xor_bytes data' key = Ok data.
Proof.
  destruct (xor_bytes_zip data key) as (ks & Hks & Hlen & Hx).
  exists (zip_with Z.lxor data ks).
  assert (Hlen' : length (zip_with Z.lxor data ks) = length data)
    by (rewrite length_zip_with; lia).
  split; [exact Hx|]. split; [exact Hlen'|].
  destruct (xor_bytes_zip (zip_with Z.lxor data ks) key) as (ks' & Hks' & _ & Hx').
  rewrite Hlen' in Hks'. assert (ks' = ks) as -> by congruence.
  rewrite Hx'. f_equal. apply zip_lxor_involutive. lia.
Qed.

(** ** The shuffle *)

Local Open Scope nat_scope.

Lemma exchange_ok {A : Type} (x : list A) (i j : nat) :
  i < length x -> j < length x ->
  exists x' : list A, exchange x i j = Ok x' /\ x' ≡ₚ x.
Proof.
  intros Hi Hj.
  destruct (lookup_lt_is_Some_2 x i Hi) as [xi Hxi].
  destruct (lookup_lt_is_Some_2 x j Hj) as [xj Hxj].
  exists (<[j := xi]> (<[i := xj]> x)). split.
  - unfold exchange.
    rewrite (getitem_Some _ _ _ Hxj). cbn [mbind res_bind].
    rewrite (getitem_Some _ _ _ Hxi). cbn [mbind res_bind].
    rewrite setitem_lt by exact Hi. cbn [mbind res_bind].
    apply setitem_lt. rewrite length_insert. exact Hj.
  - apply Permutation_insert_swap; assumption.
Qed.

Section ShuffleFacts.

Context (G : Generator) (HG : randbelow_in_range G).

Lemma shuffle_step_ok {A : Type} (g : rng G) (x : list A) (i : nat) :
  i < length x ->
  exists (g1 : rng G) (x1 : list A),
    shuffle_step G (g, x) i = Ok (g1, x1) /\ x1 ≡ₚ x.
Proof.
  intros Hi. unfold shuffle_step. cbn [fst snd].
  pose proof (HG g (i + 1) ltac:(lia)) as Hj.
  destruct (randbelow G g (i + 1)) as [j g1]. cbn [fst] in Hj.
  destruct (exchange_ok x i j Hi ltac:(lia)) as (x1 & Hx1 & Hperm1).
  exists g1, x1. rewrite Hx1. split; [reflexivity | exact Hperm1].
Qed.

Lemma shuffle_loop_perm {A : Type} (idx : list nat) :
  forall (g : rng G) (x : list A),
    Forall (fun i => i < length x) idx ->
    exists (g' : rng G) (x' : list A),
      for_each (shuffle_step G) idx (g, x) = Ok (g', x') /\ x' ≡ₚ x.
Proof.
  induction idx as [|i idx IH]; intros g x Hidx.
  - exists g, x. split; reflexivity.
  - apply Forall_cons in Hidx as [Hi Hidx].
    destruct (shuffle_step_ok g x i Hi) as (g1 & x1 & Hstep & Hperm1).
    cbn [for_each]. rewrite Hstep. cbn [mbind res_bind].
    destruct (IH g1 x1) as (g' & x' & Hrun & Hperm).
    + rewrite (Permutation_length Hperm1). exact Hidx.
    + exists g', x'. split; [exact Hrun|]. etrans; eassumption.
Qed.

Lemma shuffle_perm {A : Type} (g : rng G) (x : list A) :
  exists (g' : rng G) (x' : list A), shuffle G g x = Ok (g', x') /\ x' ≡ₚ x.
Proof.
  apply shuffle_loop_perm. apply Forall_forall. intros i Hi.
  apply elem_of_reverse, elem_of_seq in Hi. lia.
Qed.

Lemma shuffled_indices_perm (n : nat) (seed : Z) :
  exists indices : list nat,
    shuffled_indices G n seed = Ok indices /\ indices ≡ₚ seq 0 n.
Proof.
  unfold shuffled_indices.
  destruct (shuffle_perm (Random G seed) (seq 0 n)) as (g' & x' & Hrun & Hperm).
  exists x'. rewrite Hrun. split; [reflexivity | exact Hperm].
Qed.

End ShuffleFacts.

(** ** Applying and inverting an index list *)

Lemma indices_lt (indices : list nat) (n : nat) :
  indices ≡ₚ seq 0 n -> Forall (fun i => i < n) indices.
Proof.
  intros Hperm. apply Forall_forall. intros i Hi.
  rewrite Hperm in Hi. apply elem_of_seq in Hi. lia.
Qed.

Lemma comprehension_getitem {A : Type} (pixels : list A) (d : A)
    (idx : list nat) :
  Forall (fun i => i < length pixels) idx ->
  comprehension (getitem pixels) idx = Ok ((fun i => nth i pixels d) <$> idx).
Proof.
  induction idx as [|i idx IH]; intros Hidx; [reflexivity|].
  apply Forall_cons in Hidx as [Hi Hidx].
  destruct (lookup_lt_is_Some_2 pixels i Hi) as [a Ha].
  cbn [comprehension]. rewrite (getitem_Some _ _ _ Ha). cbn [mbind res_bind].
  rewrite (IH Hidx). cbn [mbind res_bind fmap list_fmap].
  rewrite nth_lookup, Ha. reflexivity.
Qed.

Lemma fmap_nth_seq {A : Type} (pixels : list A) (d : A) :
  (fun i => nth i pixels d) <$> seq 0 (length pixels) = pixels.
Proof.
  apply list_eq. intros i. rewrite list_lookup_fmap.
  destruct (decide (i < length pixels)) as [Hi|Hi].
  - rewrite lookup_seq_lt by exact Hi. cbn [fmap option_fmap option_map Nat.add].
    destruct (lookup_lt_is_Some_2 pixels i Hi) as [a Ha].
    rewrite nth_lookup, Ha. reflexivity.
  - rewrite lookup_seq_ge, lookup_ge_None_2 by lia. reflexivity.
Qed.

(** The list comprehension of line 43 on a permutation of the positions. *)
Lemma apply_permutation_perm {A : Type} (pixels : list A) (indices : list nat) :
  indices ≡ₚ seq 0 (length pixels) ->
  exists permuted : list A,
    apply_permutation pixels indices = Ok permuted
    /\ permuted ≡ₚ pixels
    /\ forall i j : nat, indices !! i = Some j -> permuted !! i = pixels !! j.
Proof.
  intros Hperm. pose proof (indices_lt _ _ Hperm) as Hlt.
  destruct pixels as [|d pixels'] eqn:Epix.
  - apply Permutation_nil_r in Hperm. subst indices.
    exists []. split; [reflexivity|]. split; [reflexivity|].
    intros i j Hij. rewrite lookup_nil in Hij. discriminate Hij.
  - rewrite <- Epix in *. clear Epix pixels'.
    exists ((fun i => nth i pixels d) <$> indices).
    split; [apply comprehension_getitem; exact Hlt|]. split.
    + rewrite Hperm. rewrite fmap_nth_seq. reflexivity.
    + intros i j Hij. rewrite list_lookup_fmap, Hij.
      cbn [fmap option_fmap option_map].
      assert (Hj : j < length pixels).
      { eapply Forall_lookup_1 in Hlt; [exact Hlt | exact Hij]. }
      destruct (lookup_lt_is_Some_2 pixels j Hj) as [a Ha].
      rewrite nth_lookup, Ha. reflexivity.
Qed.

(** The body of the loop of [invert_swap], lines 57-58. *)
Lemma invert_step_ok {A : Type} (pixels : list A) (indices : list nat)
    (orig : list (option A)) (i j : nat) (p : A) :
  indices !! i = Some j -> pixels !! i = Some p -> j < length orig ->
  (j' ← getitem indices i; p' ← getitem pixels i; setitem orig j' (Some p'))
  = Ok (<[j := Some p]> orig).
Proof.
  intros Hj Hp Hlt.
  rewrite (getitem_Some _ _ _ Hj). cbn [mbind res_bind].
  rewrite (getitem_Some _ _ _ Hp). cbn [mbind res_bind].
  apply setitem_lt. exact Hlt.
Qed.

(** After [k] rounds of the loop the slots named by the first [k] indices
    hold the first [k] pixels and every other slot is still [None]. *)
Lemma invert_loop_spec {A : Type} (pixels : list A) (indices : list nat)
    (n : nat) :
  length pixels = n -> length indices = n ->
  Forall (fun i => i < n) indices -> NoDup indices ->
  forall k : nat, k <= n ->
    exists orig : list (option A),
      for_each (fun orig i =>
                  j ← getitem indices i;
                  p ← getitem pixels i;
                  setitem orig j (Some p))
               (seq 0 k) (replicate n None) = Ok orig
      /\ length orig = n
      /\ (forall i j : nat, i < k -> indices !! i = Some j ->
            orig !! j = Some (pixels !! i))
      /\ (forall j : nat, j < n -> j ∉ take k indices -> orig !! j = Some None).
Proof.
  intros Hpix Hind Hlt Hnd k.
  induction k as [|k IH]; intros Hk.
  - exists (replicate n None). split; [reflexivity|].
    split; [apply length_replicate|]. split; [intros; lia|].
    intros j Hj _. apply lookup_replicate_2. exact Hj.
  - destruct (IH ltac:(lia)) as (orig & Hrun & Hlen & Hset & Hunset).
    destruct (lookup_lt_is_Some_2 indices k ltac:(lia)) as [j0 Hj0].
    destruct (lookup_lt_is_Some_2 pixels k ltac:(lia)) as [p Hp].
    assert (Hj0n : j0 < n).
    { eapply Forall_lookup_1 in Hlt; [exact Hlt | exact Hj0]. }
    exists (<[j0 := Some p]> orig).
    rewrite seq_S, for_each_app, Hrun. cbn [mbind res_bind for_each Nat.add].
    rewrite (invert_step_ok pixels indices orig k j0 p Hj0 Hp) by lia.
    cbn [mbind res_bind].
    split; [reflexivity|]. split; [rewrite length_insert; exact Hlen|]. split.
    + intros i j Hi Hij. destruct (decide (i = k)) as [->|Hne].
      * assert (j = j0) as -> by congruence.
        rewrite list_lookup_insert_eq by lia. rewrite Hp. reflexivity.
      * assert (j0 <> j).
        { intros ->. apply Hne. eapply NoDup_lookup; eassumption. }
        rewrite list_lookup_insert_ne by assumption.
        apply Hset; [lia | exact Hij].
    + intros j Hj Hnotin.
      rewrite (take_S_r _ _ _ Hj0) in Hnotin.
      rewrite elem_of_app, list_elem_of_singleton in Hnotin.
      rewrite list_lookup_insert_ne by (intros ->; tauto).
      apply Hunset; [exact Hj | tauto].
Qed.

Lemma all_Some_fmap {A : Type} (l : list (option A)) :
  (forall j : nat, j < length l -> exists a : A, l !! j = Some (Some a)) ->
  exists values : list A, l = Some <$> values.
Proof.
  induction l as [|o l IH]; intros Hall.
  - exists []. reflexivity.
  - destruct (Hall 0 ltac:(cbn; lia)) as [a Ha]. cbn in Ha.
    destruct IH as [values ->].
    { intros j Hj. apply (Hall (S j)). cbn. lia. }
    exists (a :: values). cbn. congruence.
Qed.

(** The loop of lines 56-58 on a permutation of the positions: every slot
    is filled, slot [indices[i]] with pixel [i]. *)
Lemma invert_permutation_perm {A : Type} (pixels : list A)
    (indices : list nat) :
  indices ≡ₚ seq 0 (length pixels) ->
  exists orig : list A,
    invert_permutation pixels indices = Ok (Some <$> orig)
    /\ length orig = length pixels
    /\ forall i j : nat, indices !! i = Some j -> orig !! j = pixels !! i.
Proof.
  intros Hperm. set (n := length pixels).
  assert (Hind : length indices = n)
    by (rewrite (Permutation_length Hperm); apply length_seq).
  assert (Hnd : NoDup indices) by (rewrite Hperm; apply NoDup_seq).
  destruct (invert_loop_spec pixels indices n eq_refl Hind
              (indices_lt _ _ Hperm) Hnd n (le_n n))
    as (slots & Hrun & Hlen & Hset & _).
  assert (Hfilled : forall i j : nat, indices !! i = Some j ->
                                      slots !! j = Some (pixels !! i)).
  { intros i j Hij. apply Hset; [|exact Hij].
    rewrite <- Hind. eapply lookup_lt_Some. exact Hij. }
  destruct (all_Some_fmap slots) as [orig ->].
  { intros j Hj. rewrite Hlen in Hj.
    assert (Hin : j ∈ indices) by (rewrite Hperm; apply elem_of_seq; lia).
    apply list_elem_of_lookup in Hin as [i Hi].
    destruct (lookup_lt_is_Some_2 pixels i) as [p Hp].
    { fold n. rewrite <- Hind. eapply lookup_lt_Some. exact Hi. }
    exists p. rewrite (Hfilled i j Hi), Hp. reflexivity. }
  exists orig. split; [exact Hrun|].
  split; [rewrite length_fmap in Hlen; exact Hlen|].
  intros i j Hij. pose proof (Hfilled i j Hij) as Hs.
  rewrite list_lookup_fmap in Hs.
  destruct (orig !! j) as [a|]; cbn in Hs; congruence.
Qed.

(** Inverting what the comprehension produced gives the pixels back. *)
Lemma invert_apply {A : Type} (pixels permuted : list A) (indices : list nat) :
  indices ≡ₚ seq 0 (length pixels) ->
  apply_permutation pixels indices = Ok permuted ->
  invert_permutation permuted indices = Ok (Some <$> pixels).
Proof.
  intros Hperm Happ.
  destruct (apply_permutation_perm pixels indices Hperm)
    as (permuted' & Happ' & Hpp & Hlook).
  assert (permuted' = permuted) as -> by congruence.
  assert (Hlen : length permuted = length pixels) by (apply Permutation_length, Hpp).
  destruct (invert_permutation_perm permuted indices) as (orig & Hinv & Hlo & Hback).
  { rewrite Hlen. exact Hperm. }
  rewrite Hinv. do 2 f_equal. apply list_eq. intros j.
  destruct (decide (j < length pixels)) as [Hj|Hj].
  - assert (Hin : j ∈ indices) by (rewrite Hperm; apply elem_of_seq; lia).
    apply list_elem_of_lookup in Hin as [i Hi].
    rewrite (Hback i j Hi). apply Hlook. exact Hi.
  - rewrite !lookup_ge_None_2 by lia. reflexivity.
Qed.

(** What the inversion loop returns is a rearrangement of its input. *)
Lemma invert_permutation_Permutation {A : Type} (pixels orig : list A)
    (indices : list nat) :
  indices ≡ₚ seq 0 (length pixels) ->
  invert_permutation pixels indices = Ok (Some <$> orig) ->
  orig ≡ₚ pixels.
Proof.
  intros Hperm Hinv.
  destruct (invert_permutation_perm pixels indices Hperm)
    as (orig' & Hinv' & Hlen & Hback).
  assert (orig' = orig) as ->.
  { rewrite Hinv in Hinv'. injection Hinv' as Heq.
    symmetry. eapply (inj (fmap Some)). exact Heq. }
  destruct (apply_permutation_perm orig indices) as (again & _ & Hpp & Hlook).
  { rewrite Hlen. exact Hperm. }
  assert (again = pixels) as ->; [|symmetry; exact Hpp].
  assert (Hla : length again = length pixels)
    by (rewrite (Permutation_length Hpp); exact Hlen).
  apply list_eq. intros i.
  destruct (decide (i < length pixels)) as [Hi|Hi].
  - destruct (lookup_lt_is_Some_2 indices i) as [j Hj].
    { rewrite (Permutation_length Hperm), length_seq. exact Hi. }
    rewrite (Hlook i j Hj). apply Hback. exact Hj.
  - rewrite !lookup_ge_None_2 by lia. reflexivity.
Qed.

(** ** The two swap transforms on the pixel list *)

Section SwapFacts.

Context (G : Generator) (HG : randbelow_in_range G).

Lemma swap_pixels_spec {A : Type} (pixels : list A) (key : string) :
  exists (indices : list nat) (permuted : list A),
    shuffled_indices G (length pixels) (derive_seed_from_key key) = Ok indices
    /\ indices ≡ₚ seq 0 (length pixels)
    /\ apply_permutation pixels indices = Ok permuted
    /\ swap_pixels G pixels key = Ok permuted
    /\ permuted ≡ₚ pixels.
Proof.
  destruct (shuffled_indices_perm G HG (length pixels)
              (derive_seed_from_key key)) as (indices & Hsh & Hperm).
  destruct (apply_permutation_perm pixels indices Hperm)
    as (permuted & Happ & Hpp & _).
  exists indices, permuted. unfold swap_pixels. rewrite Hsh.
  cbn [mbind res_bind]. auto.
Qed.

Lemma unswap_pixels_spec {A : Type} (pixels : list A) (key : string) :
  exists (indices : list nat) (orig : list A),
    shuffled_indices G (length pixels) (derive_seed_from_key key) = Ok indices
    /\ indices ≡ₚ seq 0 (length pixels)
    /\ invert_permutation pixels indices = Ok (Some <$> orig)
    /\ unswap_pixels G pixels key = Ok (Some <$> orig)
    /\ orig ≡ₚ pixels.
Proof.
  destruct (shuffled_indices_perm G HG (length pixels)
              (derive_seed_from_key key)) as (indices & Hsh & Hperm).
  destruct (invert_permutation_perm pixels indices Hperm)
    as (orig & Hinv & _ & _).
  exists indices, orig. unfold unswap_pixels. rewrite Hsh.
  cbn [mbind res_bind].
  pose proof (invert_permutation_Permutation pixels orig indices Hperm Hinv).
  auto.
Qed.

Lemma swap_unswap_pixels {A : Type} (pixels : list A) (key : string) :
  exists (indices : list nat) (permuted : list A),
    shuffled_indices G (length pixels) (derive_seed_from_key key) = Ok indices
    /\ apply_permutation pixels indices = Ok permuted
    /\ invert_permutation permuted indices = Ok (Some <$> pixels)
    /\ swap_pixels G pixels key = Ok permuted
    /\ length permuted = length pixels
    /\ unswap_pixels G permuted key = Ok (Some <$> pixels).
Proof.
  destruct (swap_pixels_spec pixels key)
    as (indices & permuted & Hsh & Hperm & Happ & Hswap & Hpp).
  pose proof (invert_apply pixels permuted indices Hperm Happ) as Hinv.
  pose proof (Permutation_length Hpp) as Hlen.
  exists indices, permuted. repeat (split; [assumption|]).
  unfold unswap_pixels. rewrite Hlen, Hsh. cbn [mbind res_bind]. exact Hinv.
Qed.

End SwapFacts.

(** ** Images *)

Lemma comprehension_Some {A : Type} (l : list A) :
  comprehension (fun o : option A => match o with
                                     | Some p => Ok p
                                     | None => Raise TypeError
                                     end) (Some <$> l) = Ok l.
Proof.
  induction l as [|a l IH]; [reflexivity|].
  cbn [fmap list_fmap comprehension mbind res_bind].
  change (list_fmap A (option A) Some l) with (Some <$> l).
  rewrite IH. reflexivity.
Qed.

Lemma putdata_new (mode : string) (size : nat * nat) (data : list pixel) :
  length data = fst size * snd size ->
  putdata (Image_new mode size) (Some <$> data)
  = Ok {| im_mode := mode; im_size := size; im_data := data |}.
Proof.
  intros Hlen. unfold putdata, Image_new. cbn [im_data im_mode im_size].
  rewrite length_fmap, length_replicate.
  destruct (decide (length data = fst size * snd size)); [|contradiction].
  rewrite comprehension_Some. reflexivity.
Qed.

Lemma tobytes_length (data : list pixel) :
  length (data ≫= pixel_bytes) = 4 * length data.
Proof.
  induction data as [|[[[r g] b] a] data IH]; [reflexivity|].
  rewrite bind_cons, length_app, IH. cbn [pixel_bytes length]. lia.
Qed.

Lemma pixels_of_tobytes (data : list pixel) :
  pixels_of_bytes (data ≫= pixel_bytes) = data.
Proof.
  induction data as [|[[[r g] b] a] data IH]; [reflexivity|].
  rewrite bind_cons. cbn [pixel_bytes app pixels_of_bytes]. rewrite IH.
  reflexivity.
Qed.

Lemma tobytes_of_pixels (m : nat) :
  forall bs : list Z,
    length bs = 4 * m -> pixels_of_bytes bs ≫= pixel_bytes = bs.
Proof.
  induction m as [|m IH]; intros bs Hlen.
  - destruct bs; [reflexivity | cbn in Hlen; lia].
  - do 4 (destruct bs as [|? bs]; [cbn in Hlen; lia|]).
    cbn [pixels_of_bytes]. rewrite bind_cons. cbn [pixel_bytes app].
    rewrite IH by (cbn in Hlen; lia). reflexivity.
Qed.

Section ModeFacts.

Context (G : Generator) (HG : randbelow_in_range G).

Lemma mode_swap_spec (img : Image) (key : string) :
  well_formed img ->
  exists permuted : list pixel,
    swap_pixels G (im_data img) key = Ok permuted
    /\ permuted ≡ₚ im_data img
    /\ mode_swap G img key
       = Ok {| im_mode := im_mode img; im_size := im_size img;
               im_data := permuted |}.
Proof.
  intros Hwf.
  destruct (swap_pixels_spec G HG (im_data img) key)
    as (_ & permuted & _ & _ & _ & Hswap & Hpp).
  exists permuted. split; [exact Hswap|]. split; [exact Hpp|].
  unfold mode_swap, getdata. rewrite Hswap. cbn [mbind res_bind].
  apply putdata_new. rewrite (Permutation_length Hpp). exact Hwf.
Qed.

Lemma invert_swap_spec (img : Image) (key : string) :
  well_formed img ->
  exists orig : list pixel,
    unswap_pixels G (im_data img) key = Ok (Some <$> orig)
    /\ orig ≡ₚ im_data img
    /\ invert_swap G img key
       = Ok {| im_mode := im_mode img; im_size := im_size img;
               im_data := orig |}.
Proof.
  intros Hwf.
  destruct (unswap_pixels_spec G HG (im_data img) key)
    as (_ & orig & _ & _ & _ & Hun & Hpp).
  exists orig. split; [exact Hun|]. split; [exact Hpp|].
  unfold invert_swap, getdata. rewrite Hun. cbn [mbind res_bind].
  apply putdata_new. rewrite (Permutation_length Hpp). exact Hwf.
Qed.

Lemma mode_swap_invert_swap (img : Image) (key : string) :
  well_formed img ->
  exists out : Image,
    mode_swap G img key = Ok out /\ invert_swap G out key = Ok img.
Proof.
  intros Hwf.
  destruct (swap_unswap_pixels G HG (im_data img) key)
    as (_ & permuted & _ & _ & _ & Hswap & Hlen & Hun).
  eexists. split.
  - unfold mode_swap, getdata. rewrite Hswap. cbn [mbind res_bind].
    apply putdata_new. rewrite Hlen. exact Hwf.
  - unfold invert_swap, getdata. cbn [im_data im_mode im_size].
    rewrite Hun. cbn [mbind res_bind].
    rewrite putdata_new by exact Hwf. destruct img; reflexivity.
Qed.

End ModeFacts.

Lemma mode_xor_twice (img : Image) (key : string) :
  well_formed img ->
  exists out : Image, mode_xor img key = Ok out /\ mode_xor out key = Ok img.
Proof.
  intros Hwf. unfold well_formed in Hwf.
  destruct (xor_bytes_twice (tobytes img) key) as (data' & Hx & Hlen & Hback).
  assert (Hbytes : length data' = 4 * (fst (im_size img) * snd (im_size img))).
  { rewrite Hlen. unfold tobytes. rewrite tobytes_length, Hwf. reflexivity. }
  exists {| im_mode := im_mode img; im_size := im_size img;
            im_data := pixels_of_bytes data' |}.
  split.
  - unfold mode_xor. rewrite Hx. cbn [mbind res_bind]. unfold frombytes.
    destruct (decide (length data' = 4 * (fst (im_size img) * snd (im_size img))));
      [reflexivity | contradiction].
  - unfold mode_xor, tobytes. cbn [im_data im_mode im_size].
    rewrite (tobytes_of_pixels _ data' Hbytes), Hback. cbn [mbind res_bind].
    unfold frombytes.
    destruct (decide (length (tobytes img)
                      = 4 * (fst (im_size img) * snd (im_size img)))) as [_|Hne].
    + unfold tobytes. rewrite pixels_of_tobytes. destruct img; reflexivity.
    + exfalso. apply Hne. unfold tobytes. rewrite tobytes_length, Hwf.
      reflexivity.
Qed.

(** ** The concrete generator satisfies the contract *)

Lemma LCG_in_range : randbelow_in_range LCG.gen.
Proof.
  intros g n Hn. cbn [LCG.gen randbelow fst].
  pose proof (Z.mod_pos_bound (LCG.next g) (Z.of_nat n) ltac:(lia)). lia.
Qed.

(** ** The claims *)

(** C1. Swap round trip: for every pixel buffer and every key, the
    permutation regenerated from the buffer length and the seed of the key
    is the same in both directions, and inverting what the forward
    transform produced gives the buffer back element for element; for
    images, [invert_swap] after [mode_swap] with the same key returns the
    image. *)
Theorem swap_round_trip (G : Generator) (HG : randbelow_in_range G) :
  (forall (A : Type) (B : list A) (k : string),
      exists (perm : list nat) (P : list A),
        shuffled_indices G (length B) (derive_seed_from_key k) = Ok perm
        /\ apply_permutation B perm = Ok P
        /\ invert_permutation P perm = Ok (Some <$> B)
        /\ swap_pixels G B k = Ok P
        /\ length P = length B
        /\ unswap_pixels G P k = Ok (Some <$> B))
  /\ (forall (img : Image) (k : string),
        well_formed img ->
        exists out : Image,
          mode_swap G img k = Ok out /\ invert_swap G out k = Ok img).
Proof.
  split.
  - intros A B k. apply swap_unswap_pixels. exact HG.
  - intros img k Hwf. apply mode_swap_invert_swap; assumption.
Qed.

Lemma swap_round_trip_witness :
  randbelow_in_range LCG.gen
  /\ well_formed Sample.img
  /\ exists out : Image,
      mode_swap LCG.gen Sample.img "secret" = Ok out
      /\ invert_swap LCG.gen out "secret" = Ok Sample.img.
Proof.
  split; [exact LCG_in_range|]. split; [reflexivity|].
  apply (proj2 (swap_round_trip LCG.gen LCG_in_range)). reflexivity.
Defined.

(** C2. Xor involution: for every byte buffer and every key, the xor
    transform combines the buffer with the keystream of the buffer's
    length, and applying it again with the same key restores the buffer;
    for images, [mode_xor] twice returns the image. *)
Theorem xor_involution :
  (forall (B : list Z) (k : string),
      exists K B' : list Z,
        keystream_bytes k (Z.of_nat (length B)) = Ok K
        /\ length K = length B
        /\ xor_bytes B k = Ok B'
        /\ B' = zip_with Z.lxor B K
        /\ xor_bytes B' k = Ok B)
  /\ (forall (img : Image) (k : string),
        well_formed img ->
        exists out : Image, mode_xor img k = Ok out /\ mode_xor out k = Ok img).
Proof.
  split.
  - intros B k.
    destruct (xor_bytes_zip B k) as (K & HK & Hlen & Hx).
    destruct (xor_bytes_twice B k) as (B' & Hx' & _ & Hback).
    exists K, B'. repeat (split; [assumption|]). split; [congruence | exact Hback].
  - intros img k Hwf. apply mode_xor_twice. exact Hwf.
Qed.

Lemma xor_involution_witness :
  well_formed Sample.img
  /\ exists out : Image,
      mode_xor Sample.img "k" = Ok out /\ mode_xor out "k" = Ok Sample.img.
Proof.
  split; [reflexivity|]. apply (proj2 xor_involution). reflexivity.
Defined.

(** C3. Permutation validity and determinism: for every length [n] and
    every seed, seeding the generator and shuffling [0..n) returns a list
    in which every index below [n] appears exactly once and nothing else
    appears, and any other call with the same length and seed returns the
    same list. *)
Theorem shuffled_indices_bijection (G : Generator) (HG : randbelow_in_range G)
    (n : nat) (seed : Z) :
  exists indices : list nat,
    shuffled_indices G n seed = Ok indices
    /\ indices ≡ₚ seq 0 n
    /\ length indices = n
    /\ NoDup indices
    /\ (forall i : nat, i ∈ indices <-> i < n)
    /\ (forall (n' : nat) (seed' : Z),
          n' = n -> seed' = seed -> shuffled_indices G n' seed' = Ok indices).
Proof.
  destruct (shuffled_indices_perm G HG n seed) as (indices & Hrun & Hperm).
  exists indices. split; [exact Hrun|]. split; [exact Hperm|].
  split; [rewrite (Permutation_length Hperm); apply length_seq|].
  split; [rewrite Hperm; apply NoDup_seq|].
  split.
  - intros i. rewrite Hperm, elem_of_seq. lia.
  - intros n' seed' -> ->. exact Hrun.
Qed.

Lemma shuffled_indices_bijection_witness :
  randbelow_in_range LCG.gen
  /\ exists indices : list nat,
      shuffled_indices LCG.gen 6 5 = Ok indices
      /\ indices ≡ₚ seq 0 6
      /\ length indices = 6
      /\ NoDup indices
      /\ (forall i : nat, i ∈ indices <-> i < 6)
      /\ (forall (n' : nat) (seed' : Z),
            n' = 6 -> seed' = 5%Z ->
            shuffled_indices LCG.gen n' seed' = Ok indices).
Proof.
  split; [exact LCG_in_range|].
  apply (shuffled_indices_bijection LCG.gen LCG_in_range 6 5).
Defined.

(** C9. In xor mode the encrypt and the decrypt operation are the same
    call: both are [mode_xor] on the image and the key. *)
Theorem main_transform_xor_symmetric (G : Generator) (img : Image)
    (key : string) :
  main_transform G encrypt xor img key = main_transform G decrypt xor img key
  /\ main_transform G encrypt xor img key = mode_xor img key.
Proof. split; reflexivity. Qed.

(** C10. Swap mode only moves pixels: for every pixel buffer and key the
    output of either swap transform has the length of the input and is a
    rearrangement of it, every value occurring as often as before; the
    same holds for the images returned by [mode_swap] and [invert_swap]. *)
Theorem swap_preserves_pixels (G : Generator) (HG : randbelow_in_range G) :
  (forall (A : Type) (B : list A) (k : string),
      (exists P : list A,
          swap_pixels G B k = Ok P
          /\ length P = length B
          /\ P ≡ₚ B
          /\ forall (eq_dec : forall x y : A, {x = y} + {x <> y}) (v : A),
              count_occ eq_dec P v = count_occ eq_dec B v)
      /\ (exists O : list A,
            unswap_pixels G B k = Ok (Some <$> O)
            /\ length O = length B
            /\ O ≡ₚ B
            /\ forall (eq_dec : forall x y : A, {x = y} + {x <> y}) (v : A),
                count_occ eq_dec O v = count_occ eq_dec B v))
  /\ (forall (img : Image) (k : string),
        well_formed img ->
        (exists out : Image,
            mode_swap G img k = Ok out
            /\ length (im_data out) = length (im_data img)
            /\ im_data out ≡ₚ im_data img)
        /\ (exists out : Image,
              invert_swap G img k = Ok out
              /\ length (im_data out) = length (im_data img)
              /\ im_data out ≡ₚ im_data img)).
Proof.
  split.
  - intros A B k. split.
    + destruct (swap_pixels_spec G HG B k) as (_ & P & _ & _ & _ & Hswap & Hpp).
      exists P. split; [exact Hswap|].
      split; [apply Permutation_length, Hpp|]. split; [exact Hpp|].
      intros eq_dec v. apply Permutation_count_occ. exact Hpp.
    + destruct (unswap_pixels_spec G HG B k) as (_ & O & _ & _ & _ & Hun & Hpp).
      exists O. split; [exact Hun|].
      split; [apply Permutation_length, Hpp|]. split; [exact Hpp|].
      intros eq_dec v. apply Permutation_count_occ. exact Hpp.
  - intros img k Hwf. split.
    + destruct (mode_swap_spec G HG img k Hwf) as (P & _ & Hpp & Hrun).
      eexists. split; [exact Hrun|]. cbn [im_data].
      split; [apply Permutation_length, Hpp | exact Hpp].
    + destruct (invert_swap_spec G HG img k Hwf) as (O & _ & Hpp & Hrun).
      eexists. split; [exact Hrun|]. cbn [im_data].
      split; [apply Permutation_length, Hpp | exact Hpp].
Qed.

Lemma swap_preserves_pixels_witness :
  randbelow_in_range LCG.gen
  /\ well_formed Sample.img
  /\ (exists out : Image,
        mode_swap LCG.gen Sample.img "secret" = Ok out
        /\ length (im_data out) = length (im_data Sample.img)
        /\ im_data out ≡ₚ im_data Sample.img)
  /\ (exists out : Image,
        invert_swap LCG.gen Sample.img "secret" = Ok out
        /\ length (im_data out) = length (im_data Sample.img)
        /\ im_data out ≡ₚ im_data Sample.img).
Proof.
  split; [exact LCG_in_range|]. split; [reflexivity|].
  apply (proj2 (swap_preserves_pixels LCG.gen LCG_in_range)). reflexivity.
Defined.

(** ** Further properties of the transforms *)

(** *** The swap transforms do not look at the pixels *)

Lemma getitem_fmap {A B : Type} (f : A -> B) (l : list A) (i : nat) :
  getitem (f <$> l) i = f <$> getitem l i.
Proof.
  unfold getitem. rewrite list_lookup_fmap.
  destruct (l !! i); reflexivity.
Qed.

Lemma setitem_fmap {A B : Type} (f : A -> B) (l : list A) (i : nat) (v : A) :
  setitem (f <$> l) i (f v) = (fun l' : list A => f <$> l') <$> setitem l i v.
Proof.
  unfold setitem. rewrite length_fmap.
  destruct (decide (i < length l)); [|reflexivity].
  cbn [fmap res_fmap]. rewrite list_fmap_insert. reflexivity.
Qed.

Lemma exchange_fmap {A B : Type} (f : A -> B) (x : list A) (i j : nat) :
  exchange (f <$> x) i j = (fun x' : list A => f <$> x') <$> exchange x i j.
Proof.
  unfold exchange. rewrite !getitem_fmap.
  destruct (getitem x j) as [xj| |]; try reflexivity.
  destruct (getitem x i) as [xi| |]; try reflexivity.
  cbn [fmap res_fmap mbind res_bind]. rewrite setitem_fmap.
  destruct (setitem x i xj) as [x1| |]; try reflexivity.
  cbn [fmap res_fmap mbind res_bind]. apply setitem_fmap.
Qed.

Lemma exchange_Ok_perm {A : Type} (x x' : list A) (i j : nat) :
  exchange x i j = Ok x' -> x' ≡ₚ x.
Proof.
  unfold exchange, getitem, setitem. intros Hrun.
  destruct (x !! j) as [xj|] eqn:Hj; [|discriminate Hrun].
  destruct (x !! i) as [xi|] eqn:Hi; [|discriminate Hrun].
  cbn [mbind res_bind] in Hrun.
  destruct (decide (i < length x)); [|discriminate Hrun].
  cbn [mbind res_bind] in Hrun.
  destruct (decide (j < length (<[i:=xj]> x))); [|discriminate Hrun].
  injection Hrun as <-. apply Permutation_insert_swap; assumption.
Qed.

Section ShuffleNatural.

Context (G : Generator).

Lemma shuffle_step_fmap {A B : Type} (f : A -> B) (g : rng G) (x : list A)
    (i : nat) :
  shuffle_step G (g, f <$> x) i
  = (fun s : rng G * list A => (fst s, f <$> snd s)) <$> shuffle_step G (g, x) i.
Proof.
  unfold shuffle_step. cbn [fst snd].
  destruct (randbelow G g (i + 1)) as [j g1].
  rewrite exchange_fmap. destruct (exchange x i j); reflexivity.
Qed.

Lemma shuffle_loop_fmap {A B : Type} (f : A -> B) (idx : list nat) :
  forall (g : rng G) (x : list A),
    for_each (shuffle_step G) idx (g, f <$> x)
    = (fun s : rng G * list A => (fst s, f <$> snd s))
      <$> for_each (shuffle_step G) idx (g, x).
Proof.
  induction idx as [|i idx IH]; intros g x; [reflexivity|].
  cbn [for_each]. rewrite shuffle_step_fmap.
  destruct (shuffle_step G (g, x) i) as [[g1 x1]| |]; try reflexivity.
  cbn [fmap res_fmap mbind res_bind fst snd]. apply IH.
Qed.

Lemma shuffle_fmap {A B : Type} (f : A -> B) (g : rng G) (x : list A) :
  shuffle G g (f <$> x)
  = (fun s : rng G * list A => (fst s, f <$> snd s)) <$> shuffle G g x.
Proof. unfold shuffle. rewrite length_fmap. apply shuffle_loop_fmap. Qed.

Lemma shuffle_loop_Ok_perm {A : Type} (idx : list nat) :
  forall (g g' : rng G) (x x' : list A),
    for_each (shuffle_step G) idx (g, x) = Ok (g', x') -> x' ≡ₚ x.
Proof.
  induction idx as [|i idx IH]; intros g g' x x' Hrun.
  - cbn [for_each] in Hrun. injection Hrun as _ <-. reflexivity.
  - cbn [for_each] in Hrun.
    destruct (shuffle_step G (g, x) i) as [[g1 x1]| |] eqn:Hstep;
      try discriminate Hrun.
    cbn [mbind res_bind] in Hrun. apply IH in Hrun. rewrite Hrun.
    unfold shuffle_step in Hstep. cbn [fst snd] in Hstep.
    destruct (randbelow G g (i + 1)) as [j g2].
    destruct (exchange x i j) as [x2| |] eqn:Hex; try discriminate Hstep.
    cbn [mbind res_bind] in Hstep. injection Hstep as _ <-.
    eapply exchange_Ok_perm. exact Hex.
Qed.

(** The forward transform as one shuffle of the pixel list itself. *)
Lemma swap_pixels_shuffle {A : Type} (pixels : list A) (key : string) :
  swap_pixels G pixels key
  = snd <$> shuffle G (Random G (derive_seed_from_key key)) pixels.
Proof.
  unfold swap_pixels, shuffled_indices. cbv zeta.
  set (g := Random G (derive_seed_from_key key)).
  destruct pixels as [|d pixels'] eqn:Epix; [reflexivity|].
  rewrite <- Epix. clear Epix pixels'.
  transitivity
    (snd <$> shuffle G g ((fun i => nth i pixels d) <$> seq 0 (length pixels)));
    [|rewrite fmap_nth_seq; reflexivity].
  rewrite shuffle_fmap.
  destruct (shuffle G g (seq 0 (length pixels))) as [[g' idx]| |] eqn:Hsh;
    try reflexivity.
  cbn [fmap res_fmap mbind res_bind fst snd].
  apply shuffle_loop_Ok_perm in Hsh.
  apply comprehension_getitem, indices_lt. exact Hsh.
Qed.

End ShuffleNatural.

Lemma invert_loop_fmap {A B : Type} (f : A -> B) (pixels : list A)
    (indices idx : list nat) :
  forall orig : list (option A),
    for_each (fun (orig : list (option B)) (i : nat) =>
                j ← getitem indices i;
                p ← getitem (f <$> pixels) i;
                setitem orig j (Some p))
             idx (option_map f <$> orig)
    = (fun o : list (option A) => option_map f <$> o)
        <$> for_each (fun (orig : list (option A)) (i : nat) =>
                        j ← getitem indices i;
                        p ← getitem pixels i;
                        setitem orig j (Some p))
                     idx orig.
Proof.
  induction idx as [|i idx IH]; intros orig; [reflexivity|].
  cbn [for_each]. rewrite getitem_fmap.
  destruct (getitem indices i) as [j| |]; try reflexivity.
  destruct (getitem pixels i) as [p| |]; try reflexivity.
  cbn [fmap res_fmap mbind res_bind].
  change (Some (f p)) with (option_map f (Some p)).
  rewrite (setitem_fmap (option_map f) orig j (Some p)).
  destruct (setitem orig j (Some p)) as [orig1| |]; try reflexivity.
  cbn [fmap res_fmap mbind res_bind]. apply IH.
Qed.

Lemma invert_permutation_fmap {A B : Type} (f : A -> B) (pixels : list A)
    (indices : list nat) :
  invert_permutation (f <$> pixels) indices
  = (fun o : list (option A) => option_map f <$> o)
      <$> invert_permutation pixels indices.
Proof.
  unfold invert_permutation. cbv zeta. rewrite length_fmap.
  rewrite <- invert_loop_fmap, fmap_replicate. reflexivity.
Qed.

(** X1. The forward swap is one shuffle of the pixel list: generating the
    index list, shuffling it and gathering the pixels gives the list that
    [rnd.shuffle(pixels)] with the same seeded generator would leave, and
    fails exactly when that shuffle fails. *)
Theorem swap_is_shuffle_of_pixels (G : Generator) (A : Type)
    (pixels : list A) (key : string) :
  swap_pixels G pixels key
  = snd <$> shuffle G (Random G (derive_seed_from_key key)) pixels.
Proof. apply swap_pixels_shuffle. Qed.

(** X2. The positions chosen by the swap transforms depend on the key and
    the number of pixels only: changing every pixel by a function [f]
    before either transform gives the same result as changing every pixel
    of its output. *)
Theorem swap_commutes_with_pixel_map (G : Generator) (A B : Type)
    (f : A -> B) (pixels : list A) (key : string) :
  swap_pixels G (f <$> pixels) key
  = (fun out : list A => f <$> out) <$> swap_pixels G pixels key
  /\ unswap_pixels G (f <$> pixels) key
     = (fun out : list (option A) => option_map f <$> out)
         <$> unswap_pixels G pixels key.
Proof.
  split.
  - rewrite !swap_pixels_shuffle, shuffle_fmap.
    destruct (shuffle G (Random G (derive_seed_from_key key)) pixels)
      as [[g' x']| |]; reflexivity.
  - unfold unswap_pixels. cbv zeta. rewrite length_fmap.
    destruct (shuffled_indices G (length pixels) (derive_seed_from_key key))
      as [indices| |]; try reflexivity.
    cbn [mbind res_bind]. apply invert_permutation_fmap.
Qed.

(** *** Buffers that the swap cannot change *)

(** X3. A buffer of at most one pixel comes back unchanged from both swap
    transforms, whatever the key and the generator: the shuffle loop runs
    over an empty range. *)
Theorem swap_tiny_buffer (G : Generator) (A : Type) (pixels : list A)
    (key : string) :
  length pixels <= 1 ->
  swap_pixels G pixels key = Ok pixels
  /\ unswap_pixels G pixels key = Ok (Some <$> pixels).
Proof.
  intros Hlen. destruct pixels as [|a [|b pixels]]; [| |cbn in Hlen; lia];
    split; reflexivity.
Qed.

Lemma swap_tiny_buffer_witness :
  length [7%Z] <= 1
  /\ swap_pixels LCG.gen [7%Z] "secret" = Ok [7%Z]
  /\ unswap_pixels LCG.gen [7%Z] "secret" = Ok (Some <$> [7%Z]).
Proof.
  split; [cbn; lia|]. apply (swap_tiny_buffer LCG.gen Z [7%Z] "secret").
  cbn. lia.
Defined.

(** X4. A buffer whose pixels are all equal comes back unchanged from both
    swap transforms, whatever the key. *)
Theorem swap_uniform_buffer (G : Generator) (HG : randbelow_in_range G)
    (A : Type) (c : A) (n : nat) (key : string) :
  swap_pixels G (replicate n c) key = Ok (replicate n c)
  /\ unswap_pixels G (replicate n c) key = Ok (Some <$> replicate n c).
Proof.
  split.
  - destruct (swap_pixels_spec G HG (replicate n c) key)
      as (_ & P & _ & _ & _ & Hswap & Hpp).
    rewrite Hswap. f_equal. symmetry. apply replicate_Permutation.
    symmetry. exact Hpp.
  - destruct (unswap_pixels_spec G HG (replicate n c) key)
      as (_ & O & _ & _ & _ & Hun & Hpp).
    rewrite Hun. do 2 f_equal. symmetry. apply replicate_Permutation.
    symmetry. exact Hpp.
Qed.

Lemma swap_uniform_buffer_witness :
  randbelow_in_range LCG.gen
  /\ swap_pixels LCG.gen (replicate 5 9%Z) "secret" = Ok (replicate 5 9%Z)
  /\ unswap_pixels LCG.gen (replicate 5 9%Z) "secret"
     = Ok (Some <$> replicate 5 9%Z).
Proof.
  split; [exact LCG_in_range|].
  apply (swap_uniform_buffer LCG.gen LCG_in_range Z 9%Z 5 "secret").
Defined.

(** *** Decrypting first *)

Lemma apply_invert {A : Type} (pixels orig : list A) (indices : list nat) :
  indices ≡ₚ seq 0 (length pixels) ->
  invert_permutation pixels indices = Ok (Some <$> orig) ->
  length orig = length pixels
  /\ apply_permutation orig indices = Ok pixels.
Proof.
  intros Hperm Hinv.
  destruct (invert_permutation_perm pixels indices Hperm)
    as (orig' & Hinv' & Hlen & Hback).
  assert (orig' = orig) as ->.
  { rewrite Hinv in Hinv'. injection Hinv' as Heq.
    symmetry. eapply (inj (fmap Some)). exact Heq. }
  split; [exact Hlen|].
  destruct (apply_permutation_perm orig indices) as (again & Happ & Hpp & Hlook).
  { rewrite Hlen. exact Hperm. }
  rewrite Happ. f_equal. apply list_eq. intros i.
  destruct (decide (i < length pixels)) as [Hi|Hi].
  - destruct (lookup_lt_is_Some_2 indices i) as [j Hj].
    { rewrite (Permutation_length Hperm), length_seq. exact Hi. }
    rewrite (Hlook i j Hj). apply Hback. exact Hj.
  - pose proof (Permutation_length Hpp).
    rewrite !lookup_ge_None_2 by lia. reflexivity.
Qed.

Section SwapBackwards.

Context (G : Generator) (HG : randbelow_in_range G).

Lemma unswap_swap_pixels {A : Type} (pixels : list A) (key : string) :
  exists orig : list A,
    unswap_pixels G pixels key = Ok (Some <$> orig)
    /\ length orig = length pixels
    /\ swap_pixels G orig key = Ok pixels.
Proof.
  destruct (unswap_pixels_spec G HG pixels key)
    as (indices & orig & Hsh & Hperm & Hinv & Hun & _).
  destruct (apply_invert pixels orig indices Hperm Hinv) as [Hlen Happ].
  exists orig. split; [exact Hun|]. split; [exact Hlen|].
  unfold swap_pixels. rewrite Hlen, Hsh. cbn [mbind res_bind]. exact Happ.
Qed.

Lemma invert_swap_mode_swap (img : Image) (key : string) :
  well_formed img ->
  exists out : Image,
    invert_swap G img key = Ok out /\ mode_swap G out key = Ok img.
Proof.
  intros Hwf.
  destruct (unswap_swap_pixels (im_data img) key) as (orig & Hun & Hlen & Hswap).
  eexists. split.
  - unfold invert_swap, getdata. rewrite Hun. cbn [mbind res_bind].
    apply putdata_new. rewrite Hlen. exact Hwf.
  - unfold mode_swap, getdata. cbn [im_data im_mode im_size].
    rewrite Hswap. cbn [mbind res_bind].
    rewrite putdata_new by exact Hwf. destruct img; reflexivity.
Qed.

End SwapBackwards.

(** X5. The swap transforms are inverse to each other in the other order
    too: running [invert_swap] first and [mode_swap] on its output, with
    the same key, gives the image back; so does the pixel-list version. *)
Theorem swap_after_unswap (G : Generator) (HG : randbelow_in_range G) :
  (forall (A : Type) (pixels : list A) (key : string),
      exists orig : list A,
        unswap_pixels G pixels key = Ok (Some <$> orig)
        /\ length orig = length pixels
        /\ swap_pixels G orig key = Ok pixels)
  /\ (forall (img : Image) (key : string),
        well_formed img ->
        exists out : Image,
          invert_swap G img key = Ok out /\ mode_swap G out key = Ok img).
Proof.
  split.
  - intros A pixels key. apply unswap_swap_pixels. exact HG.
  - intros img key Hwf. apply invert_swap_mode_swap; assumption.
Qed.

Lemma swap_after_unswap_witness :
  randbelow_in_range LCG.gen
  /\ well_formed Sample.img
  /\ exists out : Image,
      invert_swap LCG.gen Sample.img "secret" = Ok out
      /\ mode_swap LCG.gen out "secret" = Ok Sample.img.
Proof.
  split; [exact LCG_in_range|]. split; [reflexivity|].
  apply (proj2 (swap_after_unswap LCG.gen LCG_in_range)). reflexivity.
Defined.

(** *** The xor transform byte by byte *)

Local Open Scope Z_scope.

Lemma keystream_bytes_closed (p : string) (n : nat) :
  keystream_bytes p (Z.of_nat n) = Ok (keystream_byte p <$> seq 0 n).
Proof.
  rewrite (keystream_bytes_chain p (Z.of_nat n) n) by lia.
  rewrite Nat2Z.id. f_equal. apply list_eq. intros i.
  rewrite list_lookup_fmap.
  destruct (decide (i < n)%nat) as [Hi|Hi].
  - rewrite lookup_take_lt by exact Hi.
    rewrite chain_stream_lookup by lia.
    rewrite lookup_seq_lt by exact Hi. reflexivity.
  - rewrite lookup_take_ge, lookup_seq_ge by lia. reflexivity.
Qed.

Lemma xor_bytes_closed (data : list Z) (key : string) :
  xor_bytes data key
  = Ok (zip_with Z.lxor data (keystream_byte key <$> seq 0 (length data))).
Proof.
  unfold xor_bytes. rewrite keystream_bytes_closed. cbn [mbind res_bind].
  apply xor_loop_zip. rewrite length_fmap, length_seq. lia.
Qed.

Lemma zip_mask_length (mask : nat -> Z) (data : list Z) (s : nat) :
  length (zip_with Z.lxor data (mask <$> seq s (length data))) = length data.
Proof. rewrite length_zip_with, length_fmap, length_seq. lia. Qed.

Lemma zip_mask_lookup (mask : nat -> Z) (data : list Z) (i : nat) (b : Z) :
  data !! i = Some b ->
  zip_with Z.lxor data (mask <$> seq 0 (length data)) !! i
  = Some (Z.lxor b (mask i)).
Proof.
  intros Hb. rewrite lookup_zip_with, Hb, list_lookup_fmap.
  rewrite lookup_seq_lt by (eapply lookup_lt_Some; exact Hb). reflexivity.
Qed.

Lemma byte_at_range (digest : list Z) (i : nat) :
  Forall (fun b => 0 <= b < 256) digest -> 0 <= byte_at digest i < 256.
Proof.
  intros Hd. unfold byte_at. destruct (digest !! i) as [b|] eqn:Hb; cbn; [|lia].
  eapply Forall_lookup_1 in Hd; [exact Hd | exact Hb].
Qed.

Lemma keystream_byte_range (p : string) (i : nat) :
  0 <= keystream_byte p i < 256.
Proof.
  unfold keystream_byte, chain_digest. cbn [Nat.iter].
  apply byte_at_range, sha256_range.
Qed.

Lemma lxor_byte (a b : Z) :
  0 <= a < 256 -> 0 <= b < 256 -> 0 <= Z.lxor a b < 256.
Proof.
  intros Ha Hb.
  assert (Heq : Z.lxor a b = Z.lxor a b mod 2 ^ 8).
  { apply Z.bits_inj'. intros m Hm. destruct (Z.lt_ge_cases m 8).
    - rewrite Z.mod_pow2_bits_low by lia. reflexivity.
    - rewrite Z.mod_pow2_bits_high by lia. rewrite Z.lxor_spec.
      rewrite <- (Z.mod_small a (2 ^ 8)), <- (Z.mod_small b (2 ^ 8)) by lia.
      rewrite !Z.mod_pow2_bits_high by lia. reflexivity. }
  rewrite Heq. apply Z.mod_pos_bound. lia.
Qed.

Lemma zip_lxor_bytes (data ks : list Z) :
  Forall (fun b => 0 <= b < 256) data ->
  Forall (fun b => 0 <= b < 256) ks ->
  Forall (fun b => 0 <= b < 256) (zip_with Z.lxor data ks).
Proof.
  intros Hd. revert ks. induction Hd as [|d data Hd0 Hd IH]; intros ks Hks.
  - constructor.
  - destruct Hks as [|k ks Hk Hks]; cbn [zip_with]; constructor.
    + apply lxor_byte; assumption.
    + apply IH. exact Hks.
Qed.

Lemma keystream_bytes_range (p : string) (L : Z) (ks : list Z) :
  keystream_bytes p L = Ok ks -> Forall (fun b => 0 <= b < 256) ks.
Proof.
  intros Hks. destruct (Z.lt_ge_cases L 0) as [Hneg|Hpos].
  - rewrite keystream_bytes_negative in Hks by exact Hneg.
    injection Hks as <-. constructor.
  - rewrite <- (Z2Nat.id L Hpos), keystream_bytes_closed in Hks.
    injection Hks as <-. apply Forall_fmap, Forall_forall.
    intros i _. apply keystream_byte_range.
Qed.

(** X6. The keystream consists of bytes, and the xor transform of a
    buffer of bytes is a buffer of bytes: no value leaves [0, 256), so the
    in-place update of the bytearray can never be refused. *)
Theorem xor_bytes_stay_bytes (data : list Z) (key : string) :
  Forall (fun b => 0 <= b < 256) data ->
  exists ks out : list Z,
    keystream_bytes key (Z.of_nat (length data)) = Ok ks
    /\ Forall (fun b => 0 <= b < 256) ks
    /\ xor_bytes data key = Ok out
    /\ Forall (fun b => 0 <= b < 256) out.
Proof.
  intros Hdata.
  pose proof (keystream_bytes_closed key (length data)) as Hks.
  pose proof (keystream_bytes_range _ _ _ Hks) as Hrange.
  eexists _, _. split; [exact Hks|]. split; [exact Hrange|].
  split; [apply xor_bytes_closed|]. apply zip_lxor_bytes; assumption.
Qed.

Lemma xor_bytes_stay_bytes_witness :
  Forall (fun b => 0 <= b < 256) [16; 32; 48]
  /\ exists ks out : list Z,
      keystream_bytes "k" (Z.of_nat (length [16; 32; 48])) = Ok ks
      /\ Forall (fun b => 0 <= b < 256) ks
      /\ xor_bytes [16; 32; 48] "k" = Ok out
      /\ Forall (fun b => 0 <= b < 256) out.
Proof.
  assert (Hdata : Forall (fun b => 0 <= b < 256) [16; 32; 48])
    by (repeat constructor; lia).
  split; [exact Hdata | apply (xor_bytes_stay_bytes [16; 32; 48] "k" Hdata)].
Defined.

(** X7. The xor transform works position by position: the output has the
    length of the input, and its byte [i] is the input byte [i] combined
    with keystream byte [i], which depends on the key and [i] only, not on
    the other bytes or on the length of the buffer. *)
Theorem xor_bytes_bytewise (data : list Z) (key : string) :
  exists out : list Z,
    xor_bytes data key = Ok out
    /\ length out = length data
    /\ forall (i : nat) (b : Z),
        data !! i = Some b ->
        out !! i = Some (Z.lxor b (keystream_byte key i)).
Proof.
  eexists. split; [apply xor_bytes_closed|].
  split; [apply zip_mask_length|]. intros i b Hb.
  apply zip_mask_lookup. exact Hb.
Qed.

Lemma zip_mask_app (mask : nat -> Z) (front : list Z) :
  forall (s : nat) (back : list Z),
    take (length front)
         (zip_with Z.lxor (front ++ back)
                   (mask <$> seq s (length (front ++ back))))
    = zip_with Z.lxor front (mask <$> seq s (length front)).
Proof.
  induction front as [|b front IH]; intros s back; [reflexivity|].
  cbn [app length seq fmap list_fmap zip_with take]. f_equal. apply IH.
Qed.

(** X8. Cutting a buffer commutes with the xor transform: the transform
    of the first part alone is the first part of the transform of the
    whole buffer. *)
Theorem xor_bytes_of_prefix (front back : list Z) (key : string) :
  exists out_front out_whole : list Z,
    xor_bytes front key = Ok out_front
    /\ xor_bytes (front ++ back) key = Ok out_whole
    /\ take (length front) out_whole = out_front.
Proof.
  eexists _, _. split; [apply xor_bytes_closed|].
  split; [apply xor_bytes_closed|]. apply zip_mask_app.
Qed.

Lemma lxor_mask_cancel (a b m : Z) :
  Z.lxor (Z.lxor a m) (Z.lxor b m) = Z.lxor a b.
Proof.
  rewrite (Z.lxor_comm b m), Z.lxor_assoc, <- (Z.lxor_assoc m m b).
  rewrite Z.lxor_nilpotent, Z.lxor_0_l. reflexivity.
Qed.

Lemma zip_mask_reuse (mask : nat -> Z) (data1 : list Z) :
  forall (data2 : list Z) (s : nat),
    zip_with Z.lxor
             (zip_with Z.lxor data1 (mask <$> seq s (length data1)))
             (zip_with Z.lxor data2 (mask <$> seq s (length data2)))
    = zip_with Z.lxor data1 data2.
Proof.
  induction data1 as [|b1 data1 IH]; intros [|b2 data2] s; try reflexivity.
  cbn [length seq fmap list_fmap zip_with].
  rewrite lxor_mask_cancel. f_equal. apply IH.
Qed.

(** X9. The keystream depends on the key alone, so two buffers
    transformed with the same key reveal their difference: the xor of the
    two outputs is the xor of the two inputs. *)
Theorem xor_bytes_same_key (data1 data2 : list Z) (key : string) :
  exists out1 out2 : list Z,
    xor_bytes data1 key = Ok out1
    /\ xor_bytes data2 key = Ok out2
    /\ zip_with Z.lxor out1 out2 = zip_with Z.lxor data1 data2.
Proof.
  eexists _, _. split; [apply xor_bytes_closed|].
  split; [apply xor_bytes_closed|]. apply zip_mask_reuse.
Qed.

Lemma zip_lxor_swap (data : list Z) :
  forall ks1 ks2 : list Z,
    zip_with Z.lxor (zip_with Z.lxor data ks1) ks2
    = zip_with Z.lxor (zip_with Z.lxor data ks2) ks1.
Proof.
  induction data as [|b data IH]; intros [|k1 ks1] [|k2 ks2]; try reflexivity.
  cbn [zip_with]. f_equal; [|apply IH].
  rewrite !Z.lxor_assoc, (Z.lxor_comm k1 k2). reflexivity.
Qed.

Lemma zip_two_masks_id (data : list Z) :
  forall ks1 ks2 : list Z,
    length ks1 = length data -> length ks2 = length data ->
    zip_with Z.lxor (zip_with Z.lxor data ks1) ks2 = data <-> ks1 = ks2.
Proof.
  induction data as [|b data IH]; intros [|k1 ks1] [|k2 ks2] H1 H2;
    try discriminate H1; try discriminate H2; [tauto|].
  cbn [zip_with]. cbn [length] in H1, H2.
  specialize (IH ks1 ks2 ltac:(lia) ltac:(lia)).
  split.
  - intros Heq. injection Heq as Hhead Htail.
    f_equal; [|apply IH; exact Htail].
    apply Z.lxor_eq.
    assert (Hk : Z.lxor k1 k2 = Z.lxor b (Z.lxor (Z.lxor b k1) k2)).
    { rewrite <- !Z.lxor_assoc, Z.lxor_nilpotent, Z.lxor_0_l. reflexivity. }
    rewrite Hk, Hhead. apply Z.lxor_nilpotent.
  - intros Heq. injection Heq as -> ->. f_equal; [|apply IH; reflexivity].
    rewrite Z.lxor_assoc, Z.lxor_nilpotent, Z.lxor_0_r. reflexivity.
Qed.

(** X10. Two keys: transforming with key [a] and then with key [b] gives
    the same buffer as in the other order, and it gives the original
    buffer back exactly when the two keys have the same keystream on the
    length of the buffer; a wrong key restores nothing else. *)
Theorem xor_bytes_two_keys (data : list Z) (a b : string) :
  exists out : list Z,
    (x ← xor_bytes data a; xor_bytes x b) = Ok out
    /\ (x ← xor_bytes data b; xor_bytes x a) = Ok out
    /\ (out = data <->
        keystream_bytes a (Z.of_nat (length data))
        = keystream_bytes b (Z.of_nat (length data))).
Proof.
  set (n := length data).
  set (ka := keystream_byte a <$> seq 0 n).
  set (kb := keystream_byte b <$> seq 0 n).
  assert (Hla : length ka = n) by (unfold ka; rewrite length_fmap; apply length_seq).
  assert (Hlb : length kb = n) by (unfold kb; rewrite length_fmap; apply length_seq).
  exists (zip_with Z.lxor (zip_with Z.lxor data ka) kb).
  split; [|split].
  - rewrite xor_bytes_closed. cbn [mbind res_bind].
    rewrite xor_bytes_closed, zip_mask_length. reflexivity.
  - rewrite xor_bytes_closed. cbn [mbind res_bind].
    rewrite xor_bytes_closed, zip_mask_length. f_equal. apply zip_lxor_swap.
  - rewrite !keystream_bytes_closed. fold n ka kb.
    rewrite (zip_two_masks_id data ka kb Hla Hlb).
    split; [intros ->; reflexivity | intros Heq; injection Heq as Heq; exact Heq].
Qed.

(** *** Images through the transforms *)

Local Open Scope nat_scope.

Lemma seq_four (n : nat) :
  seq 0 (4 * S n) = 0 :: 1 :: 2 :: 3 :: (Nat.add 4 <$> seq 0 (4 * n)).
Proof.
  rewrite fmap_add_seq. replace (4 * S n) with (S (S (S (S (4 * n))))) by lia.
  reflexivity.
Qed.

Lemma pixels_of_zip_mask (data : list pixel) :
  forall mask : nat -> Z,
    pixels_of_bytes
      (zip_with Z.lxor (data ≫= pixel_bytes) (mask <$> seq 0 (4 * length data)))
    = imap (xor_pixel mask) data.
Proof.
  induction data as [|[[[r g] b] a] data IH]; intros mask; [reflexivity|].
  rewrite bind_cons, imap_cons. cbn [pixel_bytes app length].
  rewrite seq_four, !fmap_cons, <- list_fmap_compose.
  cbn [zip_with pixels_of_bytes]. rewrite IH. f_equal.
  apply imap_ext. intros i [[[r' g'] b'] a'] _. unfold xor_pixel, compose.
  replace (4 * S i) with (4 + 4 * i) by lia.
  rewrite <- !Nat.add_assoc. reflexivity.
Qed.

Lemma pixels_of_bytes_length (m : nat) :
  forall bs : list Z, length bs = 4 * m -> length (pixels_of_bytes bs) = m.
Proof.
  induction m as [|m IH]; intros bs Hlen.
  - destruct bs; [reflexivity | cbn in Hlen; lia].
  - do 4 (destruct bs as [|? bs]; [cbn in Hlen; lia|]).
    cbn [pixels_of_bytes length]. rewrite IH by (cbn in Hlen; lia).
    reflexivity.
Qed.

(** [mode_xor] in closed form on an image of width times height pixels. *)
Lemma mode_xor_closed (img : Image) (key : string) :
  well_formed img ->
  mode_xor img key
  = Ok {| im_mode := im_mode img; im_size := im_size img;
          im_data := imap (xor_pixel (keystream_byte key)) (im_data img) |}.
Proof.
  intros Hwf. unfold well_formed in Hwf. unfold mode_xor, tobytes.
  rewrite xor_bytes_closed. cbn [mbind res_bind]. unfold frombytes.
  rewrite zip_mask_length, tobytes_length, Hwf.
  destruct (decide (4 * (fst (im_size img) * snd (im_size img))
                    = 4 * (fst (im_size img) * snd (im_size img))));
    [|contradiction].
  rewrite <- Hwf, pixels_of_zip_mask. reflexivity.
Qed.

Section MainFacts.

Context (G : Generator) (HG : randbelow_in_range G).

Lemma main_transform_keeps_shape (op : operation) (m : mode) (img : Image)
    (key : string) :
  well_formed img ->
  exists out : Image,
    main_transform G op m img key = Ok out
    /\ im_mode out = im_mode img
    /\ im_size out = im_size img
    /\ well_formed out.
Proof.
  intros Hwf. destruct m; [destruct op|]; cbn [main_transform].
  - destruct (mode_swap_spec G HG img key Hwf) as (P & _ & Hpp & Hrun).
    eexists. split; [exact Hrun|]. cbn. repeat split.
    unfold well_formed. cbn. rewrite (Permutation_length Hpp). exact Hwf.
  - destruct (invert_swap_spec G HG img key Hwf) as (O & _ & Hpp & Hrun).
    eexists. split; [exact Hrun|]. cbn. repeat split.
    unfold well_formed. cbn. rewrite (Permutation_length Hpp). exact Hwf.
  - eexists. split; [apply mode_xor_closed; exact Hwf|]. cbn. repeat split.
    unfold well_formed. cbn. rewrite length_imap. exact Hwf.
Qed.

Lemma main_transform_inverse (m : mode) (img : Image) (key : string) :
  well_formed img ->
  (exists mid : Image,
      main_transform G encrypt m img key = Ok mid
      /\ main_transform G decrypt m mid key = Ok img)
  /\ (exists mid : Image,
        main_transform G decrypt m img key = Ok mid
        /\ main_transform G encrypt m mid key = Ok img).
Proof.
  intros Hwf. destruct m; cbn [main_transform].
  - split.
    + apply mode_swap_invert_swap; assumption.
    + apply invert_swap_mode_swap; assumption.
  - split; apply mode_xor_twice; exact Hwf.
Qed.

End MainFacts.

(** X11. The transform selected by the command line undoes itself: for
    either mode and any key, decrypting what encrypting returned gives the
    image back, and so does encrypting what decrypting returned. *)
Theorem main_transform_round_trip (G : Generator) (HG : randbelow_in_range G)
    (m : mode) (img : Image) (key : string) :
  well_formed img ->
  (exists mid : Image,
      main_transform G encrypt m img key = Ok mid
      /\ main_transform G decrypt m mid key = Ok img)
  /\ (exists mid : Image,
        main_transform G decrypt m img key = Ok mid
        /\ main_transform G encrypt m mid key = Ok img).
Proof. apply main_transform_inverse. exact HG. Qed.

Lemma main_transform_round_trip_witness :
  randbelow_in_range LCG.gen
  /\ well_formed Sample.img
  /\ (exists mid : Image,
        main_transform LCG.gen encrypt swap Sample.img "secret" = Ok mid
        /\ main_transform LCG.gen decrypt swap mid "secret" = Ok Sample.img)
  /\ (exists mid : Image,
        main_transform LCG.gen decrypt swap Sample.img "secret" = Ok mid
        /\ main_transform LCG.gen encrypt swap mid "secret" = Ok Sample.img).
Proof.
  split; [exact LCG_in_range|]. split; [reflexivity|].
  apply (main_transform_round_trip LCG.gen LCG_in_range swap Sample.img
           "secret").
  reflexivity.
Defined.

(** X12. For a key that has a UTF-8 encoding (every [key : string] here
    is one, given by its encoded bytes) and an image of width times height
    pixels, the selected transform raises nothing, whatever the operation
    and the mode, and it returns an image of the same mode and size that
    again holds width times height pixels. A key without an encoding is
    not covered: [key.encode('utf-8')] raises on it. *)
Theorem main_transform_shape (G : Generator) (HG : randbelow_in_range G)
    (op : operation) (m : mode) (img : Image) (key : string) :
  well_formed img ->
  exists out : Image,
    main_transform G op m img key = Ok out
    /\ im_mode out = im_mode img
    /\ im_size out = im_size img
    /\ well_formed out.
Proof. apply main_transform_keeps_shape. exact HG. Qed.

Lemma main_transform_shape_witness :
  randbelow_in_range LCG.gen
  /\ well_formed Sample.img
  /\ exists out : Image,
      main_transform LCG.gen decrypt xor Sample.img "k" = Ok out
      /\ im_mode out = im_mode Sample.img
      /\ im_size out = im_size Sample.img
      /\ well_formed out.
Proof.
  split; [exact LCG_in_range|]. split; [reflexivity|].
  apply (main_transform_shape LCG.gen LCG_in_range decrypt xor Sample.img "k").
  reflexivity.
Defined.

(** X13. [mode_xor] changes every channel of every pixel, the alpha
    channel included: channel [c] of pixel [i] is combined with keystream
    byte [4 * i + c], and the mode and the size are kept. *)
Theorem mode_xor_every_channel (img : Image) (key : string) :
  well_formed img ->
  mode_xor img key
  = Ok {| im_mode := im_mode img; im_size := im_size img;
          im_data := imap (xor_pixel (keystream_byte key)) (im_data img) |}.
Proof. apply mode_xor_closed. Qed.

Lemma mode_xor_every_channel_witness :
  well_formed Sample.img
  /\ mode_xor Sample.img "k"
     = Ok {| im_mode := im_mode Sample.img; im_size := im_size Sample.img;
             im_data := imap (xor_pixel (keystream_byte "k"))
                             (im_data Sample.img) |}.
Proof.
  split; [reflexivity | apply (mode_xor_every_channel Sample.img "k")].
  reflexivity.
Defined.
